(** * ultra_fast_port_scanner.py: a shallow embedding and its properties

    The scanner is embedded function by function.  Pure Python code
    (batch_ports, the COMMON_PORTS lookup, the argument checks of main)
    becomes Rocq functions over [Z], [string] and lists; code that talks
    to the operating system (scan_port, get_banner) runs in a state and
    exception monad over an abstract operating system; the thread pool of
    fast_scan is a step relation on pool states driven by a schedule. *)

From Stdlib Require Import ZArith QArith Qround Lia Lqa String Ascii List.
From Stdlib.Strings Require Import Byte.
From stdpp Require Import base tactics option list numbers gmap strings sorting.

Local Open Scope string_scope.
Local Open Scope list_scope.
Local Open Scope Z_scope.

(** ** Python exceptions and results *)

(** The exception classes the modelled calls can raise.  All of them are
    subclasses of Python's [Exception]; [BlockingIOError],
    [ConnectionRefusedError], [TimeoutError] and [gaierror] are subclasses
    of [OSError]; [UnicodeEncodeError] is a subclass of [ValueError]. *)
Inductive exn : Type :=
| BlockingIOError
| ConnectionRefusedError
| TimeoutError
| gaierror
| OSError (errno : Z)
| OverflowError
| ValueError
| UnicodeEncodeError
| TypeError.

(** A Python evaluation either returns a value or raises. *)
Inductive res (A : Type) : Type :=
| Ok (a : A)
| Exc (e : exn).
Arguments Ok {A} a.
Arguments Exc {A} e.

(** ** Ranges and slices *)

(** [range(start, stop)] as a list. *)
Definition py_range (start stop : Z) : list Z := seqZ start (stop - start).

(** The length CPython computes for [range(start, stop, step)]. *)
Definition py_range_len (start stop step : Z) : Z :=
  if 0 <? step then
    if start <? stop then (stop - start - 1) / step + 1 else 0
  else if step <? 0 then
    if stop <? start then (start - stop - 1) / (- step) + 1 else 0
  else 0.

(** [range(start, stop, step)]: a zero step raises ValueError; item [k]
    is [start + k * step]. *)
Definition py_range_step (start stop step : Z) : res (list Z) :=
  if step =? 0 then Exc ValueError
  else Ok ((fun k => start + k * step) <$> seqZ 0 (py_range_len start stop step)).

(** Slice bounds are adjusted as CPython does for a step of 1: a negative
    index counts from the end, and both ends are clamped to the list. *)
Definition adjust_index (len i : Z) : Z :=
  if i <? 0 then Z.max 0 (i + len) else Z.min i len.

(** [l[i:j]]. *)
Definition py_slice {A : Type} (l : list A) (i j : Z) : list A :=
  let n := Z.of_nat (length l) in
  let lo := adjust_index n i in
  let hi := adjust_index n j in
  take (Z.to_nat (hi - lo)) (drop (Z.to_nat lo) l).

(** ** batch_ports *)

(** [batch_ports(start, end, batch_size)]:
      ports = list(range(start, end + 1))
      return [ports[i:i + batch_size] for i in range(0, len(ports), batch_size)] *)
Definition batch_ports (start end_ batch_size : Z) : res (list (list Z)) :=
  let ports := py_range start (end_ + 1) in
  match py_range_step 0 (Z.of_nat (length ports)) batch_size with
  | Exc e => Exc e
  | Ok starts => Ok ((fun i => py_slice ports i (i + batch_size)) <$> starts)
  end.

Example batch_ports_1_10_4 :
  batch_ports 1 10 4 = Ok [[1; 2; 3; 4]; [5; 6; 7; 8]; [9; 10]].
Proof. reflexivity. Qed.

Example batch_ports_zero_size : batch_ports 1 10 0 = Exc ValueError.
Proof. reflexivity. Qed.

Example batch_ports_negative_size : batch_ports 1 10 (-1) = Ok [].
Proof. reflexivity. Qed.

(** ** Facts about slices and chunks *)

Lemma py_slice_nonneg {A : Type} (l : list A) (i j : Z) :
  0 <= i <= j ->
  py_slice l i j = take (Z.to_nat (j - i)) (drop (Z.to_nat i) l).
Proof.
  intros Hij. unfold py_slice, adjust_index.
  destruct (Z.ltb_spec i 0); [lia|].
  destruct (Z.ltb_spec j 0); [lia|].
  set (n := Z.of_nat (length l)).
  destruct (Z_le_gt_dec j n) as [Hj|Hj].
  - rewrite !Z.min_l by lia. reflexivity.
  - destruct (Z_le_gt_dec i n) as [Hi|Hi].
    + rewrite (Z.min_l i n), (Z.min_r j n) by lia.
      rewrite !take_ge; [reflexivity | |]; rewrite length_drop; subst n; lia.
    + rewrite !Z.min_r by lia.
      rewrite (drop_ge l (Z.to_nat i)) by (subst n; lia).
      rewrite Z.sub_diag. simpl. by rewrite take_nil.
Qed.

(** The chunks [l[k*b : k*b + b]] for [k < m], concatenated, are the first
    [m * b] elements of [l]. *)
Lemma concat_chunks {A : Type} (l : list A) (b m : nat) :
  concat ((fun k => take b (drop (k * b) l)) <$> seq 0 m) = take (m * b) l.
Proof.
  induction m as [|m IH].
  - reflexivity.
  - rewrite seq_S, fmap_app, concat_app, IH. simpl.
    rewrite app_nil_r, take_take_drop. f_equal. lia.
Qed.

Lemma drop_seqZ (m len : Z) (k : nat) :
  drop k (seqZ m len) = seqZ (m + Z.of_nat k) (len - Z.of_nat k).
Proof.
  apply list_eq. intros i. rewrite lookup_drop.
  destruct (decide (Z.of_nat (k + i) < len)) as [Hlt|Hge].
  - rewrite !lookup_seqZ_lt by lia. f_equal. lia.
  - rewrite !lookup_seqZ_ge by lia. reflexivity.
Qed.

Lemma take_seqZ (m len : Z) (k : nat) :
  take k (seqZ m len) = seqZ m (Z.min (Z.of_nat k) len).
Proof.
  unfold seqZ. rewrite <- fmap_take, take_seq. do 2 f_equal. lia.
Qed.

(** For a positive batch size, batch [k] is the slice of [batch_size]
    ports that starts [k * batch_size] places into the range. *)
Lemma batch_ports_chunks (start end_ batch_size : Z) :
  start <= end_ -> 1 <= batch_size ->
  batch_ports start end_ batch_size =
    Ok ((fun k : nat =>
           take (Z.to_nat batch_size)
                (drop (k * Z.to_nat batch_size) (seqZ start (end_ - start + 1))))
          <$> seq 0 (Z.to_nat ((end_ - start) / batch_size + 1))).
Proof.
  intros Hse Hbs. unfold batch_ports, py_range, py_range_step, py_range_len.
  destruct (Z.eqb_spec batch_size 0) as [?|_]; [lia|].
  destruct (Z.ltb_spec 0 batch_size) as [_|?]; [|lia].
  rewrite length_seqZ.
  destruct (Z.ltb_spec 0 (Z.of_nat (Z.to_nat (end_ + 1 - start)))) as [_|?]; [|lia].
  replace (Z.of_nat (Z.to_nat (end_ + 1 - start)) - 0 - 1) with (end_ - start) by lia.
  replace (end_ + 1 - start) with (end_ - start + 1) by lia.
  set (ports := seqZ start (end_ - start + 1)).
  f_equal. unfold seqZ. rewrite <- !list_fmap_compose.
  apply list_fmap_ext. intros _ k _. simpl.
  rewrite py_slice_nonneg by nia.
  f_equal; [lia|]. f_equal. nia.
Qed.

Lemma batch_ports_lookup (start end_ batch_size : Z) (batches : list (list Z))
    (k : nat) (b : list Z) :
  start <= end_ -> 1 <= batch_size ->
  batch_ports start end_ batch_size = Ok batches ->
  batches !! k = Some b ->
  b = seqZ (start + Z.of_nat k * batch_size)
           (Z.min batch_size (end_ + 1 - (start + Z.of_nat k * batch_size))) /\
  Z.of_nat k * batch_size <= end_ - start /\
  ((S k < length batches)%nat <-> Z.of_nat (S k) * batch_size <= end_ - start).
Proof.
  intros Hse Hbs Hb Hk. rewrite batch_ports_chunks in Hb by assumption.
  injection Hb as <-.
  assert (Hm : 0 <= (end_ - start) / batch_size) by (apply Z.div_pos; lia).
  rewrite list_lookup_fmap in Hk.
  destruct (seq 0 _ !! k) as [k'|] eqn:Hseq; [|discriminate].
  apply lookup_seq in Hseq as [-> Hlt]. simpl in Hk. injection Hk as <-.
  assert (Hkm : Z.of_nat k <= (end_ - start) / batch_size) by lia.
  assert (Hkb : Z.of_nat k * batch_size <= end_ - start).
  { transitivity ((end_ - start) / batch_size * batch_size); [nia|].
    rewrite Z.mul_comm. apply Z.mul_div_le. lia. }
  split; [|split; [exact Hkb|]].
  - rewrite drop_seqZ, take_seqZ. f_equal; lia.
  - rewrite length_fmap, length_seq. split.
    + intros HS.
      assert (Z.of_nat (S k) <= (end_ - start) / batch_size) by lia.
      transitivity ((end_ - start) / batch_size * batch_size); [nia|].
      rewrite Z.mul_comm. apply Z.mul_div_le. lia.
    + intros HS.
      assert (Z.of_nat (S k) <= (end_ - start) / batch_size); [|lia].
      apply Z.div_le_lower_bound; lia.
Qed.

(** C1. For every valid port range [1 <= start <= end <= 65535] and every
    batch size of at least 1, batch_ports returns batches whose
    concatenation, in order, is exactly [start, start+1, ..., end]: every
    port of the range occurs exactly once and no other port occurs.  Batch
    [k] is the contiguous run that starts at [start + k * batch_size]; no
    batch is empty, none is longer than [batch_size], and every batch but
    the last has exactly [batch_size] ports. *)
Theorem batch_ports_partition (start end_ batch_size : Z) :
  1 <= start -> start <= end_ -> end_ <= 65535 -> 1 <= batch_size ->
  exists batches : list (list Z),
    batch_ports start end_ batch_size = Ok batches /\
    concat batches = seqZ start (end_ - start + 1) /\
    NoDup (concat batches) /\
    (forall p : Z, p ∈ concat batches <-> start <= p <= end_) /\
    (forall (k : nat) (b : list Z), batches !! k = Some b ->
       b = seqZ (start + Z.of_nat k * batch_size) (Z.of_nat (length b)) /\
       1 <= Z.of_nat (length b) <= batch_size /\
       ((S k < length batches)%nat -> Z.of_nat (length b) = batch_size)).
Proof.
  intros H1 Hse H2 Hbs.
  destruct (batch_ports start end_ batch_size) as [batches|e] eqn:Hb;
    [|rewrite batch_ports_chunks in Hb by assumption; discriminate].
  exists batches. split; [reflexivity|].
  assert (Hcat : concat batches = seqZ start (end_ - start + 1)).
  { pose proof Hb as Hb'. rewrite batch_ports_chunks in Hb' by assumption.
    injection Hb' as <-. rewrite concat_chunks. apply take_ge.
    rewrite length_seqZ.
    assert (end_ - start < batch_size * ((end_ - start) / batch_size + 1)).
    { pose proof (Z.mul_succ_div_gt (end_ - start) batch_size). lia. }
    assert (0 <= (end_ - start) / batch_size) by (apply Z.div_pos; lia).
    nia. }
  split; [exact Hcat|]. rewrite Hcat.
  split; [apply NoDup_seqZ|].
  split; [intros p; rewrite elem_of_seqZ; lia|].
  intros k b Hk.
  destruct (batch_ports_lookup _ _ _ _ _ _ Hse Hbs Hb Hk) as (Hbk & Hkb & Hlast).
  assert (Hlen : Z.of_nat (length b) =
                 Z.min batch_size (end_ + 1 - (start + Z.of_nat k * batch_size))).
  { rewrite Hbk at 1. rewrite length_seqZ. lia. }
  split; [rewrite Hlen; exact Hbk|].
  split; [lia|].
  intros HS. apply Hlast in HS. lia.
Qed.

(** The theorem at the range 1-10 with batches of 4. *)
Lemma batch_ports_partition_witness :
  exists batches : list (list Z),
    batch_ports 1 10 4 = Ok batches /\
    concat batches = seqZ 1 (10 - 1 + 1) /\
    NoDup (concat batches) /\
    (forall p : Z, p ∈ concat batches <-> 1 <= p <= 10) /\
    (forall (k : nat) (b : list Z), batches !! k = Some b ->
       b = seqZ (1 + Z.of_nat k * 4) (Z.of_nat (length b)) /\
       1 <= Z.of_nat (length b) <= 4 /\
       ((S k < length batches)%nat -> Z.of_nat (length b) = 4)).
Proof. apply (batch_ports_partition 1 10 4); lia. Defined.


(** ** The well-known-port table *)

(** The module-level dict [COMMON_PORTS]. *)
Definition COMMON_PORTS : gmap Z string :=
  list_to_map
    [ (21, "FTP"); (22, "SSH"); (23, "Telnet"); (25, "SMTP"); (53, "DNS");
      (80, "HTTP"); (110, "POP3"); (143, "IMAP"); (443, "HTTPS");
      (445, "SMB"); (993, "IMAPS"); (995, "POP3S"); (1433, "MSSQL");
      (1521, "Oracle"); (3306, "MySQL"); (3389, "RDP"); (5432, "PostgreSQL");
      (5900, "VNC"); (6379, "Redis"); (8080, "HTTP-Alt"); (8443, "HTTPS-Alt");
      (27017, "MongoDB"); (11211, "Memcached") ].

(** [COMMON_PORTS.get(port, 'Unknown')]. *)
Definition service_of (port : Z) : string :=
  default "Unknown" (COMMON_PORTS !! port).

(** ** Text *)

(** A decoded Python [str]: its code points. *)
Definition ustr : Type := list N.

(** The code points CPython's [str.strip()] removes (Py_UNICODE_ISSPACE). *)
Definition py_isspace (c : N) : bool :=
  ((9 <=? c) && (c <=? 13) || (28 <=? c) && (c <=? 32) ||
   (c =? 133) || (c =? 160) || (c =? 5760) ||
   (8192 <=? c) && (c <=? 8202) || (c =? 8232) || (c =? 8233) ||
   (c =? 8239) || (c =? 8287) || (c =? 12288))%N.

Fixpoint lstrip (s : ustr) : ustr :=
  match s with
  | c :: s' => if py_isspace c then lstrip s' else s
  | [] => []
  end.

Definition rstrip (s : ustr) : ustr := reverse (lstrip (reverse s)).

(** [s.strip()]. *)
Definition str_strip (s : ustr) : ustr := rstrip (lstrip s).

(** ** The platform: operating system and runtime library *)

Inductive address_family : Type := AF_INET | AF_INET6.
Inductive socket_kind : Type := SOCK_STREAM | SOCK_DGRAM.

(** A socket object. *)
Definition sock : Type := Z.

(** A scan record, the dict scan_port returns. *)
Record ProbeResult : Type := {
  r_ip : string;
  r_port : Z;
  r_status : string;
  r_service : string;
  r_banner : ustr;
  r_timestamp : string
}.

(** The calls the scanner makes to the operating system.  Durations and
    clock readings are rational numbers of seconds. *)
Inductive call : Type :=
| socket_socket (family : address_family) (kind : socket_kind)
| sock_settimeout (s : sock) (timeout : Q)
| sock_setblocking (s : sock) (flag : bool)
| sock_connect (s : sock) (ip : string) (port : Z)
| sock_connect_ex (s : sock) (ip : string) (port : Z)
| sock_recv (s : sock) (bufsize : Z)
| sock_close (s : sock)
| time_time
| time_sleep (secs : Q)
| datetime_now
| datetime_now_isoformat
| json_dump_file (filename : string) (results : list ProbeResult).

(** What each call returns when it does not raise. *)
Definition reply (c : call) : Type :=
  match c with
  | socket_socket _ _ => sock
  | sock_connect_ex _ _ _ => Z
  | sock_recv _ _ => list byte
  | time_time => Q
  | datetime_now => Q
  | datetime_now_isoformat => string
  | _ => unit
  end.

(** The platform the scanner runs on.  [sys] answers a call in a given
    state of the world: a reply or an exception, and the next state.  The
    three library functions are pure.  [socket.inet_pton] returns the
    packed address or raises: [OSError] (which is [socket.error]) for a
    text that is not an address of the family, and other classes for a
    text it cannot take at all ([UnicodeEncodeError] for a lone
    surrogate, [ValueError] for an embedded null character).  For
    [py_int], [None] stands for the [ValueError] that [int] raises on a
    text it cannot read. *)
Record platform : Type := {
  world : Type;
  sys : forall c : call, world -> res (reply c) * world;
  inet_pton : address_family -> string -> res (list byte);
  utf8_decode_ignore : list byte -> ustr;
  py_int : string -> option Z
}.

(** ** The monad of effectful code *)

(** The state a computation threads: the world, and the calls made so far
    (oldest first). *)
Record state (P : platform) : Type := {
  st_world : world P;
  st_trace : list call
}.
Arguments st_world {P} s.
Arguments st_trace {P} s.

(** A computation returns, raises, or is still looping when its loop
    budget is spent. *)
Inductive outcome (A : Type) : Type :=
| Ret (a : A)
| Raise (e : exn)
| Spin.
Arguments Ret {A} a.
Arguments Raise {A} e.
Arguments Spin {A}.

Definition M (P : platform) (A : Type) : Type := state P -> outcome A * state P.

Section Monad.
Context {P : platform}.

Definition ret {A : Type} (a : A) : M P A := fun st => (Ret a, st).

Definition bind {A B : Type} (m : M P A) (k : A -> M P B) : M P B :=
  fun st =>
    match m st with
    | (Ret a, st') => k a st'
    | (Raise e, st') => (Raise e, st')
    | (Spin, st') => (Spin, st')
    end.

Definition raise {A : Type} (e : exn) : M P A := fun st => (Raise e, st).

Definition spin {A : Type} : M P A := fun st => (Spin, st).

(** One call to the operating system, recorded in the trace. *)
Definition sys_call (c : call) (st : state P) : res (reply c) * state P :=
  let (r, w) := sys P c (st_world st) in
  (r, {| st_world := w; st_trace := st_trace st ++ [c] |}).

Definition do_call (c : call) : M P (reply c) :=
  fun st =>
    match sys_call c st with
    | (Ok a, st') => (Ret a, st')
    | (Exc e, st') => (Raise e, st')
    end.

(** [try: m  except <classes>: h]: the handler runs for the exceptions
    [catches] accepts, the others propagate. *)
Definition try_except {A : Type} (m : M P A) (catches : exn -> bool)
    (h : exn -> M P A) : M P A :=
  fun st =>
    match m st with
    | (Raise e, st') => if catches e then h e st' else (Raise e, st')
    | r => r
    end.

(** Leaving a [with] block: [fin] runs when the body returns or raises,
    and an exception of [fin] replaces the body's result. *)
Definition finally {A : Type} (m : M P A) (fin : M P unit) : M P A :=
  fun st =>
    match m st with
    | (Spin, st') => (Spin, st')
    | (r, st') =>
        match fin st' with
        | (Ret _, st'') => (r, st'')
        | (Raise e, st'') => (Raise e, st'')
        | (Spin, st'') => (Spin, st'')
        end
    end.

End Monad.

Notation "'let*' x ':=' m 'in' k" := (bind m (fun x => k))
  (at level 10, x name, m at level 100, k at level 200).
Notation "m '>>' k" := (bind m (fun _ => k))
  (at level 100, k at level 200, right associativity).

(** Which exceptions an [except] clause accepts. *)
Definition any_exception (e : exn) : bool := true.
Definition only_BlockingIOError (e : exn) : bool :=
  match e with BlockingIOError => true | _ => false end.

(** [except socket.error]: [socket.error] is [OSError], so the clause
    accepts [OSError] and its subclasses, and nothing else. *)
Definition only_socket_error (e : exn) : bool :=
  match e with
  | BlockingIOError | ConnectionRefusedError | TimeoutError | gaierror
  | OSError _ => true
  | _ => false
  end.

(** [x < y] on rationals. *)
Definition Qltb (x y : Q) : bool := negb (Qle_bool y x).

(** ** get_banner and scan_port *)

Section Probe.
Context {P : platform}.

(** [get_banner(sock)]:
      try:
          sock.settimeout(1)
          return sock.recv(1024).decode('utf-8', errors='ignore').strip()
      except:
          return "" *)
Definition get_banner (s : sock) : M P ustr :=
  try_except
    (do_call (sock_settimeout s 1) >>
     let* data := do_call (sock_recv s 1024) in
     ret (str_strip (utf8_decode_ignore P data)))
    any_exception
    (fun _ => ret []).

(** The first connect of scan_port:
      try: sock.connect((ip, port))
      except BlockingIOError: pass *)
Definition first_connect (s : sock) (ip : string) (port : Z) : M P unit :=
  try_except (do_call (sock_connect s ip port)) only_BlockingIOError
    (fun _ => ret tt).

(** One attempt inside the polling loop:
      try:
          ready = sock.connect_ex((ip, port)) == 0
          if ready: break
      except: pass
    [ready] is False on entry, and stays so when connect_ex raises. *)
Definition poll_once (s : sock) (ip : string) (port : Z) : M P bool :=
  try_except
    (let* rc := do_call (sock_connect_ex s ip port) in ret (rc =? 0))
    any_exception
    (fun _ => ret false).

(** The polling loop of scan_port, returning the final value of [ready]:
      while time.time() - start < timeout:
          <poll_once, leaving the loop when ready>
          time.sleep(0.01)
    [budget] bounds the number of times the loop condition is evaluated. *)
Fixpoint poll (budget : nat) (s : sock) (ip : string) (port : Z)
    (start timeout : Q) : M P bool :=
  match budget with
  | O => spin
  | S budget' =>
      let* now := do_call time_time in
      if Qltb (now - start) timeout then
        let* ready := poll_once s ip port in
        if ready then ret true
        else do_call (time_sleep 0.01) >> poll budget' s ip port start timeout
      else ret false
  end.

(** The record built for an open port:
      service = COMMON_PORTS.get(port, 'Unknown')
      banner = get_banner(sock) if service != 'Unknown' else ''
      return {"ip": ip, "port": port, "status": "open", "service": service,
              "banner": banner, "timestamp": datetime.now().isoformat()} *)
Definition open_record (s : sock) (ip : string) (port : Z) : M P ProbeResult :=
  let service := service_of port in
  let* banner := (if String.eqb service "Unknown" then ret [] else get_banner s) in
  let* stamp := do_call datetime_now_isoformat in
  ret {| r_ip := ip; r_port := port; r_status := "open"; r_service := service;
         r_banner := banner; r_timestamp := stamp |}.

(** The first part of the [with socket.socket(...) as sock] block, up to
    the end of the polling loop; it returns the final value of [ready]:
      sock.settimeout(timeout)
      sock.setblocking(False)
      start = time.time()
      <first_connect>
      ready = False
      <poll> *)
Definition connect_phase (budget : nat) (ip : string) (port : Z) (timeout : Q)
    (s : sock) : M P bool :=
  do_call (sock_settimeout s timeout) >>
  do_call (sock_setblocking s false) >>
  let* start := do_call time_time in
  first_connect s ip port >>
  poll budget s ip port start timeout.

(** The whole block; it returns the record, or [None] when control falls
    out of the block:
      <connect_phase>
      if ready:
          <open_record> *)
Definition scan_body (budget : nat) (ip : string) (port : Z) (timeout : Q)
    (s : sock) : M P (option ProbeResult) :=
  let* ready := connect_phase budget ip port timeout s in
  if ready then let* r := open_record s ip port in ret (Some r)
  else ret None.

(** [with socket.socket(AF_INET, SOCK_STREAM) as sock: body]: the socket
    is closed when the block is left. *)
Definition with_socket {A : Type} (body : sock -> M P A) : M P A :=
  let* s := do_call (socket_socket AF_INET SOCK_STREAM) in
  finally (body s) (do_call (sock_close s)).

(** [scan_port(ip, port, timeout)].  The handler's [logging.debug] writes
    nothing: the root logger is configured at level INFO. *)
Definition scan_port (budget : nat) (ip : string) (port : Z) (timeout : Q)
    : M P (option ProbeResult) :=
  try_except (with_socket (scan_body budget ip port timeout))
    any_exception
    (fun _ => ret None).

(** [validate_ip(ip)]:
      try:
          return bool(socket.inet_pton(socket.AF_INET, ip))
      except socket.error:
          try:
              return bool(socket.inet_pton(socket.AF_INET6, ip))
          except socket.error:
              return False
    [bool(b)] of the packed address [b] is true when [b] is not empty.  An
    exception of inet_pton that is not a [socket.error] is not caught. *)
Definition validate_ip (ip : string) : res bool :=
  match inet_pton P AF_INET ip with
  | Ok packed => Ok (negb (Nat.eqb (length packed) 0))
  | Exc e =>
      if only_socket_error e then
        match inet_pton P AF_INET6 ip with
        | Ok packed => Ok (negb (Nat.eqb (length packed) 0))
        | Exc e' => if only_socket_error e' then Ok false else Exc e'
        end
      else Exc e
  end.

End Probe.

(** ** The process: module-level state *)

Inductive level : Type := DEBUG | INFO | WARNING | ERROR.

(** The messages the program logs.  Fixed texts are kept as they are;
    formatted texts keep the values they are formatted from. *)
Inductive message : Type :=
| Msg (text : string)
| MsgOpen (ip : string) (port : Z) (service : string) (banner : ustr)
| MsgScanning (start_port end_port : Z) (ip : string)
| MsgThreads (threads : Z) (timeout : Q)
| MsgSaved (filename : string)
| MsgComplete (open_ports : list Z)
| MsgTotalTime (duration : Q).

(** The state of one run of the program: the operating system, the
    module-level list [scan_results], the module-level [results_lock]
    (the task that holds it, if any), and what has been logged. *)
Record process (P : platform) : Type := {
  p_os : state P;
  scan_results : list ProbeResult;
  results_lock : option nat;
  p_log : list (level * message)
}.
Arguments p_os {P} p.
Arguments scan_results {P} p.
Arguments results_lock {P} p.
Arguments p_log {P} p.

(** The state in which the module has just been loaded:
      scan_results = []
      results_lock = threading.Lock() *)
Definition process_start {P : platform} (w : world P) : process P :=
  {| p_os := {| st_world := w; st_trace := [] |};
     scan_results := [];
     results_lock := None;
     p_log := [] |}.

(** ** The thread pool: port_scan_worker as a step function *)

(** Where a submitted call [port_scan_worker(ip, ports, timeout, scan_results)]
    stands.  [Running ports] is at the head of the [for] loop with [ports]
    still to scan; the next four are the stages of
      with results_lock:
          results.append(result)
      logging.info(...)
    for a result [r], with [rest] still to scan. *)
Inductive task : Type :=
| Queued (ports : list Z)
| Running (ports : list Z)
| Locking (r : ProbeResult) (rest : list Z)
| Appending (r : ProbeResult) (rest : list Z)
| Unlocking (r : ProbeResult) (rest : list Z)
| Logging (r : ProbeResult) (rest : list Z)
| Finished
| Failed (e : exn).

Definition is_queued (t : task) : bool :=
  match t with Queued _ => true | _ => false end.

Definition is_done (t : task) : bool :=
  match t with Finished | Failed _ => true | _ => false end.

(** A task that occupies a pool thread. *)
Definition is_active (t : task) : bool := negb (is_queued t) && negb (is_done t).

Record pool (P : platform) : Type := {
  proc : process P;
  tasks : list task
}.
Arguments proc {P} p.
Arguments tasks {P} p.

(** The parameters every task of one scan shares. *)
Record scan_config : Type := {
  c_budget : nat;
  c_ip : string;
  c_timeout : Q;
  c_max_workers : Z
}.

Section Pool.
Context {P : platform}.

Definition set_os (p : process P) (st : state P) : process P :=
  {| p_os := st; scan_results := scan_results p;
     results_lock := results_lock p; p_log := p_log p |}.

Definition set_lock (p : process P) (l : option nat) : process P :=
  {| p_os := p_os p; scan_results := scan_results p;
     results_lock := l; p_log := p_log p |}.

Definition append_result (p : process P) (r : ProbeResult) : process P :=
  {| p_os := p_os p; scan_results := scan_results p ++ [r];
     results_lock := results_lock p; p_log := p_log p |}.

Definition logging (lvl : level) (m : message) (p : process P) : process P :=
  {| p_os := p_os p; scan_results := scan_results p;
     results_lock := results_lock p; p_log := p_log p ++ [(lvl, m)] |}.

(** A queued call starts when the calls submitted before it have started
    (the executor's work queue is first in, first out) and fewer than
    [max_workers] calls occupy a thread. *)
Definition can_start (max_workers : Z) (tid : nat) (ts : list task) : bool :=
  forallb (fun t => negb (is_queued t)) (take tid ts) &&
  (Z.of_nat (length (filter (fun t => is_active t = true) ts)) <? max_workers).

(** One step of task [tid]: the new process state and the task's next
    stage, or [None] when the task cannot move (it is done, it waits for
    a thread or for the lock, or its probe has not returned).  A probe is
    one step: scan_port reads and writes nothing of the program that
    another task can see, only its own socket and the operating system.
    [results.append(result)] is one step too, a single call on the list. *)
Definition task_step (c : scan_config) (tid : nat) (pl : pool P)
    : option (process P * task) :=
  let p := proc pl in
  match tasks pl !! tid with
  | None => None
  | Some (Queued ports) =>
      if can_start (c_max_workers c) tid (tasks pl)
      then Some (p, Running ports) else None
  | Some (Running []) => Some (p, Finished)
  | Some (Running (port :: rest)) =>
      match scan_port (c_budget c) (c_ip c) port (c_timeout c) (p_os p) with
      | (Ret (Some r), st) => Some (set_os p st, Locking r rest)
      | (Ret None, st) => Some (set_os p st, Running rest)
      | (Raise e, st) => Some (set_os p st, Failed e)
      | (Spin, _) => None
      end
  | Some (Locking r rest) =>
      match results_lock p with
      | None => Some (set_lock p (Some tid), Appending r rest)
      | Some _ => None
      end
  | Some (Appending r rest) => Some (append_result p r, Unlocking r rest)
  | Some (Unlocking r rest) => Some (set_lock p None, Logging r rest)
  | Some (Logging r rest) =>
      Some (logging INFO
              (MsgOpen (c_ip c) (r_port r) (r_service r) (r_banner r)) p,
            Running rest)
  | Some Finished => None
  | Some (Failed _) => None
  end.

(** The pool after task [tid] is given a turn; a task that cannot move
    leaves the pool as it is. *)
Definition pool_step (c : scan_config) (tid : nat) (pl : pool P) : pool P :=
  match task_step c tid pl with
  | Some (p, t) => {| proc := p; tasks := <[tid := t]> (tasks pl) |}
  | None => pl
  end.

(** The pool after the turns of a schedule, one task identifier a turn. *)
Definition run_pool (c : scan_config) (sched : list nat) (pl : pool P) : pool P :=
  foldl (fun pl tid => pool_step c tid pl) pl sched.

Definition all_done (pl : pool P) : bool := forallb is_done (tasks pl).

(** How a call of fast_scan or main ends: it returns, it raises, or it is
    still waiting for the pool when the schedule ends. *)
Inductive ending : Type :=
| Returned (p : process P)
| Raised (e : exn) (p : process P)
| Waiting (pl : pool P).

(** The pool right after every batch has been submitted. *)
Definition submitted (p : process P) (port_batches : list (list Z)) : pool P :=
  {| proc := p; tasks := Queued <$> port_batches |}.

(** The parameters fast_scan passes to the executor and to every worker. *)
Definition scan_config_of (budget : nat) (ip : string) (max_threads : Z)
    (timeout : Q) : scan_config :=
  {| c_budget := budget; c_ip := ip; c_timeout := timeout;
     c_max_workers := max_threads |}.

(** [fast_scan(ip, start_port, end_port, max_threads, timeout)]:
      port_batches = batch_ports(start_port, end_port, max_threads // 2)
      with ThreadPoolExecutor(max_workers=max_threads) as executor:
          <submit port_scan_worker for every batch>
          concurrent.futures.wait(futures)
    ThreadPoolExecutor raises ValueError for [max_workers <= 0]; [wait]
    and the executor's shutdown return when every submitted call is done. *)
Definition fast_scan (budget : nat) (sched : list nat) (ip : string)
    (start_port end_port max_threads : Z) (timeout : Q) (p : process P)
    : ending :=
  match batch_ports start_port end_port (max_threads / 2) with
  | Exc e => Raised e p
  | Ok port_batches =>
      if max_threads <=? 0 then Raised ValueError p
      else
        let pl := run_pool (scan_config_of budget ip max_threads timeout) sched
                    (submitted p port_batches) in
        if all_done pl then Returned (proc pl) else Waiting pl
  end.

End Pool.
Arguments ending P : clear implicits.

(** ** main *)

(** The namespace parse_arguments returns.  A text is held as the bytes
    of the command-line argument it comes from. *)
Record arguments : Type := {
  a_ip : string;
  a_ports : string;
  a_threads : Z;
  a_timeout : Q;
  a_output : string;
  a_banner : bool
}.

(** [s.split(sep)] for a one-character separator. *)
Fixpoint str_split (sep : ascii) (s : string) : list string :=
  match s with
  | EmptyString => [EmptyString]
  | String ch s' =>
      if Ascii.eqb ch sep then EmptyString :: str_split sep s'
      else match str_split sep s' with
           | piece :: pieces => String ch piece :: pieces
           | [] => [String ch EmptyString]
           end
  end.

(** [ch in s]. *)
Fixpoint str_contains (ch : ascii) (s : string) : bool :=
  match s with
  | EmptyString => false
  | String ch' s' => Ascii.eqb ch' ch || str_contains ch s'
  end.

Definition dash : ascii := "-"%char.

(** A Python float as [--timeout] can give it: argparse's [type=float]
    reads nan, inf and -inf besides the finite values. *)
Inductive pyfloat : Type :=
| Finite (q : Q)
| PosInf
| NegInf
| NaN.

(** [x < y] on floats: every comparison with NaN is false. *)
Definition float_lt (x y : pyfloat) : bool :=
  match x, y with
  | Finite a, Finite b => Qltb a b
  | Finite _, PosInf => true
  | NegInf, Finite _ => true
  | NegInf, PosInf => true
  | _, _ => false
  end.

(** The builtins [min(a, b)] and [max(a, b)]: the first argument is kept
    unless the second compares strictly below it (for max, above it). *)
Definition py_min (a b : pyfloat) : pyfloat := if float_lt b a then b else a.
Definition py_max (a b : pyfloat) : pyfloat := if float_lt a b then b else a.

(** [max(min(args.timeout, 5.0), 0.1)] on every float. *)
Definition float_clamp_timeout (timeout : pyfloat) : pyfloat :=
  py_max (py_min timeout (Finite 5.0)) (Finite 0.1).

Section Main.
Context {P : platform}.

(** The port specification, as main reads it:
      if '-' in args.ports:
          start_port, end_port = map(int, args.ports.split('-'))
      else:
          start_port = end_port = int(args.ports)
    Unpacking anything but two values raises ValueError, as does [int]
    on a piece it cannot read. *)
Definition parse_port_spec (spec : string) : res (Z * Z) :=
  if str_contains dash spec then
    match str_split dash spec with
    | [a; b] =>
        match py_int P a with
        | None => Exc ValueError
        | Some start_port =>
            match py_int P b with
            | None => Exc ValueError
            | Some end_port => Ok (start_port, end_port)
            end
        end
    | _ => Exc ValueError
    end
  else
    match py_int P spec with
    | None => Exc ValueError
    | Some port => Ok (port, port)
    end.

(** [min(max(args.threads, 1), 500)]. *)
Definition clamp_threads (threads : Z) : Z := Z.min (Z.max threads 1) 500.

(** [max(min(args.timeout, 5.0), 0.1)] on a finite timeout, the case the
    rest of the embedding follows; it is [float_clamp_timeout] there. *)
Definition clamp_timeout (timeout : Q) : Q :=
  let capped := if Qltb 5.0 timeout then 5.0%Q else timeout in
  if Qltb capped 0.1 then 0.1%Q else capped.

(** A call made by the main thread. *)
Definition proc_call (c : call) (p : process P) : res (reply c) * process P :=
  let (r, st) := sys_call c (p_os p) in (r, set_os p st).

(** [save_results(filename, results)]. *)
Definition save_results (filename : string) (p : process P)
    : res unit * process P :=
  match proc_call (json_dump_file filename (scan_results p)) p with
  | (Ok _, p') => (Ok tt, logging INFO (MsgSaved filename) p')
  | (Exc e, p') => (Exc e, p')
  end.

(** The part of main that follows fast_scan. *)
Definition report (a : arguments) (start_time : Q) (p : process P) : ending P :=
  match proc_call datetime_now p with
  | (Exc e, p1) => Raised e p1
  | (Ok now, p1) =>
      let duration := (now - start_time)%Q in
      let total := logging INFO (MsgTotalTime duration) in
      match scan_results p1 with
      | [] => Returned (total (logging WARNING (Msg "No open ports found") p1))
      | _ :: _ =>
          match save_results (a_output a) p1 with
          | (Exc e, p2) => Raised e p2
          | (Ok _, p2) =>
              let open_ports := merge_sort Z.le (r_port <$> scan_results p2) in
              Returned (total (logging INFO (MsgComplete open_ports) p2))
          end
      end
  end.

(** [main()], from the parsed arguments on.  Nothing in main catches an
    exception of validate_ip. *)
Definition main (budget : nat) (sched : list nat) (a : arguments)
    (p : process P) : ending P :=
  match validate_ip (P := P) (a_ip a) with
  | Exc e => Raised e p
  | Ok false => Returned (logging ERROR (Msg "Invalid IP address") p)
  | Ok true =>
    match parse_port_spec (a_ports a) with
    | Exc _ => Returned (logging ERROR (Msg "Invalid port range") p)
    | Ok (start_port, end_port) =>
        if (start_port <? 1) || (65535 <? end_port) || (end_port <? start_port)
        then Returned (logging ERROR (Msg "Invalid port range (1-65535)") p)
        else
          let threads := clamp_threads (a_threads a) in
          let timeout := clamp_timeout (a_timeout a) in
          let p1 := logging INFO (MsgScanning start_port end_port (a_ip a)) p in
          let p2 := logging INFO (MsgThreads threads timeout) p1 in
          match proc_call datetime_now p2 with
          | (Exc e, p3) => Raised e p3
          | (Ok start_time, p3) =>
              match fast_scan budget sched (a_ip a) start_port end_port
                      threads timeout p3 with
              | Returned p4 => report a start_time p4
              | other => other
              end
          end
    end
  end.

End Main.

(** ** A concrete platform

    A small closed world on which the definitions can be run: the host
    127.0.0.1 listens on ports 22, 80 and 9999, every listener sends
    [READY] and a newline, and the clock moves only when the program
    sleeps.  Host texts are resolved as glibc resolves them for an
    AF_INET socket. *)

Record demo_world : Type := {
  dw_clock : Q;
  dw_sockets : Z
}.

Definition demo_listening (ip : string) (port : Z) : bool :=
  String.eqb ip "127.0.0.1" && ((port =? 22) || (port =? 80) || (port =? 9999)).

Definition ECONNREFUSED : Z := 111.

Definition demo_greeting : list byte := [x52; x45; x41; x44; x59; x0a]%byte.

(** The host an AF_INET socket reaches for a host text: an IPv4-mapped
    IPv6 literal is resolved to the IPv4 address it maps, any other text
    with a colon has no address of the family, and every other text is
    taken as it is. *)
Definition demo_resolve (ip : string) : option string :=
  if String.eqb ip "::ffff:127.0.0.1" then Some "127.0.0.1"
  else if str_contains ":"%char ip then None
  else Some ip.

Definition demo_sys (c : call) (w : demo_world) : res (reply c) * demo_world :=
  match c return res (reply c) * demo_world with
  | socket_socket _ _ =>
      (Ok (dw_sockets w),
       {| dw_clock := dw_clock w; dw_sockets := dw_sockets w + 1 |})
  | sock_settimeout _ _ => (Ok tt, w)
  | sock_setblocking _ _ => (Ok tt, w)
  | sock_connect _ ip _ =>
      (match demo_resolve ip with
       | Some _ => Exc BlockingIOError
       | None => Exc gaierror
       end, w)
  | sock_connect_ex _ ip port =>
      (match demo_resolve ip with
       | Some host => Ok (if demo_listening host port then 0 else ECONNREFUSED)
       | None => Exc gaierror
       end, w)
  | sock_recv _ _ => (Ok demo_greeting, w)
  | sock_close _ => (Ok tt, w)
  | time_time => (Ok (dw_clock w), w)
  | time_sleep secs =>
      if Qltb secs 0 then (Exc ValueError, w)
      else (Ok tt, {| dw_clock := Qred (dw_clock w + secs);
                      dw_sockets := dw_sockets w |})
  | datetime_now => (Ok (dw_clock w), w)
  | datetime_now_isoformat => (Ok "2024-01-01T00:00:00", w)
  | json_dump_file _ _ => (Ok tt, w)
  end.

(** The byte 0xFF occurs in no UTF-8 text: Python reads it from the
    command line as the lone surrogate U+DCFF. *)
Definition byte_FF : ascii := "255"%char.

(** inet_pton's OSError carries no error number; 0 stands for none. *)
Definition illegal_address : exn := OSError 0.

(** Numeric addresses the demo knows: two IPv4 literals, the IPv6
    loopback and an IPv4-mapped IPv6 literal.  A text with a lone
    surrogate cannot be encoded for the C library. *)
Definition demo_inet_pton (family : address_family) (ip : string)
    : res (list byte) :=
  if str_contains byte_FF ip then Exc UnicodeEncodeError
  else
    match family with
    | AF_INET =>
        if String.eqb ip "127.0.0.1" then Ok [x7f; x00; x00; x01]%byte
        else if String.eqb ip "10.0.0.5" then Ok [x0a; x00; x00; x05]%byte
        else Exc illegal_address
    | AF_INET6 =>
        if String.eqb ip "::1" then Ok (replicate 15 x00%byte ++ [x01%byte])
        else if String.eqb ip "::ffff:127.0.0.1"
        then Ok (replicate 10 x00%byte ++ [xff; xff; x7f; x00; x00; x01]%byte)
        else Exc illegal_address
    end.

(** Bytes below 128 are the code points they encode; the demo drops the
    others. *)
Definition demo_decode (data : list byte) : ustr :=
  omap (fun b => let n := Byte.to_N b in if (n <? 128)%N then Some n else None)
       data.

Definition digit_of (ch : ascii) : option Z :=
  let n := Z.of_N (N_of_ascii ch) in
  if (48 <=? n) && (n <=? 57) then Some (n - 48) else None.

Fixpoint demo_digits (acc : Z) (s : string) : option Z :=
  match s with
  | EmptyString => Some acc
  | String ch s' =>
      match digit_of ch with
      | Some d => demo_digits (10 * acc + d) s'
      | None => None
      end
  end.

(** Unsigned decimal numerals. *)
Definition demo_int (s : string) : option Z :=
  match s with
  | EmptyString => None
  | _ => demo_digits 0 s
  end.

Definition demo : platform :=
  {| world := demo_world;
     sys := demo_sys;
     inet_pton := demo_inet_pton;
     utf8_decode_ignore := demo_decode;
     py_int := demo_int |}.

Definition demo_boot : demo_world := {| dw_clock := 0; dw_sockets := 3 |}.

Definition demo_state : state demo :=
  Build_state demo demo_boot [].

(** The demo process right after the module is loaded. *)
Definition demo_process : process demo := process_start (P := demo) demo_boot.

Definition demo_args (ip ports : string) (threads : Z) (banner : bool) : arguments :=
  {| a_ip := ip; a_ports := ports; a_threads := threads; a_timeout := 0.1;
     a_output := "scan_results.json"; a_banner := banner |}.

(** A schedule that gives each of [n] tasks a turn, [rounds] times over. *)
Definition round_robin (n rounds : nat) : list nat :=
  concat (replicate rounds (seq 0 n)).

(** The demo process after one scan of port 22 of 127.0.0.1 with four
    threads, the only task taking seven turns. *)
Definition demo_after_scan : process demo :=
  Eval vm_compute in
    match fast_scan 20 (replicate 7 0%nat) "127.0.0.1" 22 22 4 0.1 demo_process with
    | Returned p => p
    | _ => demo_process
    end.

(** ** Facts about strip *)

Lemma lstrip_spec (s : ustr) :
  exists pre : ustr,
    s = pre ++ lstrip s /\
    Forall (fun c => py_isspace c = true) pre /\
    (forall c, head (lstrip s) = Some c -> py_isspace c = false).
Proof.
  induction s as [|c s (pre & Heq & Hpre & Hhead)].
  - exists []. repeat split; [constructor | discriminate].
  - simpl. destruct (py_isspace c) eqn:Hc.
    + exists (c :: pre). repeat split.
      * simpl. congruence.
      * constructor; assumption.
      * exact Hhead.
    + exists []. repeat split; [constructor|].
      intros c' [= <-]. exact Hc.
Qed.

Lemma rstrip_spec (s : ustr) :
  exists post : ustr,
    s = rstrip s ++ post /\
    Forall (fun c => py_isspace c = true) post /\
    (forall c, last (rstrip s) = Some c -> py_isspace c = false).
Proof.
  unfold rstrip. destruct (lstrip_spec (reverse s)) as (pre & Heq & Hpre & Hhead).
  exists (reverse pre). repeat split.
  - rewrite <- reverse_app, <- Heq. symmetry. apply reverse_involutive.
  - apply Forall_reverse. exact Hpre.
  - intros c. rewrite last_reverse. apply Hhead.
Qed.

(** [strip] removes a run of whitespace at each end and nothing else, and
    what is left neither starts nor ends with whitespace. *)
Lemma str_strip_spec (s : ustr) :
  exists pre post : ustr,
    s = pre ++ str_strip s ++ post /\
    Forall (fun c => py_isspace c = true) pre /\
    Forall (fun c => py_isspace c = true) post /\
    (forall c, head (str_strip s) = Some c -> py_isspace c = false) /\
    (forall c, last (str_strip s) = Some c -> py_isspace c = false).
Proof.
  unfold str_strip.
  destruct (lstrip_spec s) as (pre & Heq & Hpre & Hhead).
  destruct (rstrip_spec (lstrip s)) as (post & Heq' & Hpost & Hlast).
  exists pre, post. repeat split; try assumption.
  - rewrite <- Heq'. exact Heq.
  - intros c Hc. apply Hhead. rewrite Heq'.
    destruct (rstrip (lstrip s)); [discriminate | exact Hc].
Qed.

Example strip_ready :
  str_strip (demo_decode demo_greeting) = [82; 69; 65; 68; 89]%N.
Proof. reflexivity. Qed.

(** ** Facts about the monad and the trace *)

Section MonadFacts.
Context {P : platform}.

Lemma sys_call_trace (c : call) (st : state P) (r : res (reply c)) (st' : state P) :
  sys_call c st = (r, st') -> st_trace st' = st_trace st ++ [c].
Proof.
  unfold sys_call. destruct (sys P c (st_world st)) as [r' w].
  intros [= _ <-]. reflexivity.
Qed.

(** [emits m ok]: whatever [m] does, it only adds calls to the trace, and
    every call it adds satisfies [ok]. *)
Definition emits {A : Type} (m : M P A) (ok : call -> Prop) : Prop :=
  forall st o st', m st = (o, st') ->
    exists tr, st_trace st' = st_trace st ++ tr /\ Forall ok tr.

Lemma emits_ret {A : Type} (a : A) (ok : call -> Prop) : emits (ret a) ok.
Proof. intros st o st' [= _ <-]. exists []. by rewrite app_nil_r. Qed.

Lemma emits_raise {A : Type} (e : exn) (ok : call -> Prop) :
  emits (raise (A := A) e) ok.
Proof. intros st o st' [= _ <-]. exists []. by rewrite app_nil_r. Qed.

Lemma emits_spin {A : Type} (ok : call -> Prop) : emits (spin (A := A)) ok.
Proof. intros st o st' [= _ <-]. exists []. by rewrite app_nil_r. Qed.

Lemma emits_call (c : call) (ok : call -> Prop) : ok c -> emits (do_call c) ok.
Proof.
  intros Hc st o st'. unfold do_call.
  destruct (sys_call c st) as [r st1] eqn:Hsys.
  apply sys_call_trace in Hsys.
  destruct r; intros [= _ <-]; exists [c]; split; auto.
Qed.

Lemma emits_bind {A B : Type} (m : M P A) (k : A -> M P B) (ok : call -> Prop) :
  emits m ok -> (forall a, emits (k a) ok) -> emits (bind m k) ok.
Proof.
  intros Hm Hk st o st'. unfold bind.
  destruct (m st) as [[a|e|] st1] eqn:Hrun; apply Hm in Hrun as (tr1 & Htr1 & Hok1).
  - intros Hrun2. apply Hk in Hrun2 as (tr2 & Htr2 & Hok2).
    exists (tr1 ++ tr2). split; [|by apply Forall_app].
    by rewrite Htr2, Htr1, app_assoc.
  - intros [= _ <-]. eauto.
  - intros [= _ <-]. eauto.
Qed.

Lemma emits_try {A : Type} (m : M P A) (catches : exn -> bool)
    (h : exn -> M P A) (ok : call -> Prop) :
  emits m ok -> (forall e, emits (h e) ok) -> emits (try_except m catches h) ok.
Proof.
  intros Hm Hh st o st'. unfold try_except.
  destruct (m st) as [[a|e|] st1] eqn:Hrun; apply Hm in Hrun as (tr1 & Htr1 & Hok1).
  - intros [= _ <-]. eauto.
  - destruct (catches e).
    + intros Hrun2. apply Hh in Hrun2 as (tr2 & Htr2 & Hok2).
      exists (tr1 ++ tr2). split; [|by apply Forall_app].
      by rewrite Htr2, Htr1, app_assoc.
    + intros [= _ <-]. eauto.
  - intros [= _ <-]. eauto.
Qed.

Lemma emits_finally {A : Type} (m : M P A) (fin : M P unit) (ok : call -> Prop) :
  emits m ok -> emits fin ok -> emits (finally m fin) ok.
Proof.
  intros Hm Hf st o st'. unfold finally.
  destruct (m st) as [[a|e|] st1] eqn:Hrun; apply Hm in Hrun as (tr1 & Htr1 & Hok1).
  - destruct (fin st1) as [[[]|e'|] st2] eqn:Hfin;
      apply Hf in Hfin as (tr2 & Htr2 & Hok2); intros [= _ <-];
      (exists (tr1 ++ tr2); split; [by rewrite Htr2, Htr1, app_assoc | by apply Forall_app]).
  - destruct (fin st1) as [[[]|e'|] st2] eqn:Hfin;
      apply Hf in Hfin as (tr2 & Htr2 & Hok2); intros [= _ <-];
      (exists (tr1 ++ tr2); split; [by rewrite Htr2, Htr1, app_assoc | by apply Forall_app]).
  - intros [= _ <-]. eauto.
Qed.

(** A computation built without the loop never spins. *)
Definition settles {A : Type} (m : M P A) : Prop :=
  forall st, fst (m st) <> Spin.

(** A computation that never raises. *)
Definition never_raises {A : Type} (m : M P A) : Prop :=
  forall st e, fst (m st) <> Raise e.

Lemma try_any_never_raises {A : Type} (m : M P A) (h : exn -> M P A) :
  (forall e, never_raises (h e)) -> never_raises (try_except m any_exception h).
Proof.
  intros Hh st e. unfold try_except.
  destruct (m st) as [[a|e'|] st1]; simpl; try discriminate.
  apply Hh.
Qed.

Lemma ret_never_raises {A : Type} (a : A) : never_raises (ret (P := P) a).
Proof. intros st e. discriminate. Qed.

End MonadFacts.

(** ** get_banner *)

Section BannerFacts.
Context {P : platform}.

Lemma get_banner_returns (s : sock) (st : state P) :
  exists (banner : ustr) (st' : state P), get_banner s st = (Ret banner, st').
Proof.
  unfold get_banner, try_except, bind, do_call, ret.
  destruct (sys_call (sock_settimeout s 1) st) as [[[]|e1] st1]; [|eauto].
  destruct (sys_call (sock_recv s 1024) st1) as [[data|e2] st2]; eauto.
Qed.

(** C5. get_banner always returns a text, never an exception.  It sets the
    socket's timeout to 1 second and then makes one [recv] call that asks
    for 1024 bytes, and no other call.  When both calls succeed the text
    is the tolerant decoding of the bytes read with the whitespace at both
    ends removed (and nothing else removed); when either call raises, the
    text is empty. *)
Theorem get_banner_total (s : sock) (st : state P) :
  exists (banner : ustr) (st' : state P),
    get_banner s st = (Ret banner, st') /\
    match sys_call (sock_settimeout s 1) st with
    | (Exc _, st1) => banner = [] /\ st' = st1
    | (Ok _, st1) =>
        match sys_call (sock_recv s 1024) st1 with
        | (Exc _, st2) => banner = [] /\ st' = st2
        | (Ok data, st2) =>
            banner = str_strip (utf8_decode_ignore P data) /\ st' = st2 /\
            exists pre post : ustr,
              utf8_decode_ignore P data = pre ++ banner ++ post /\
              Forall (fun c => py_isspace c = true) pre /\
              Forall (fun c => py_isspace c = true) post
        end
    end /\
    (st_trace st' = st_trace st ++ [sock_settimeout s 1; sock_recv s 1024] \/
     st_trace st' = st_trace st ++ [sock_settimeout s 1]) /\
    (forall c, head banner = Some c -> py_isspace c = false) /\
    (forall c, last banner = Some c -> py_isspace c = false).
Proof.
  unfold get_banner, try_except, bind, do_call, ret.
  destruct (sys_call (sock_settimeout s 1) st) as [[[]|e1] st1] eqn:H1.
  - pose proof (sys_call_trace _ _ _ _ H1) as T1.
    destruct (sys_call (sock_recv s 1024) st1) as [[data|e2] st2] eqn:H2.
    + pose proof (sys_call_trace _ _ _ _ H2) as T2.
      destruct (str_strip_spec (utf8_decode_ignore P data))
        as (pre & post & Heq & Hpre & Hpost & Hhead & Hlast).
      eexists _, _. split; [reflexivity|]. repeat split; try assumption.
      * exists pre, post. auto.
      * left. rewrite T2, T1, <- app_assoc. reflexivity.
    + pose proof (sys_call_trace _ _ _ _ H2) as T2.
      eexists _, _. split; [reflexivity|]. repeat split; try discriminate.
      left. rewrite T2, T1, <- app_assoc. reflexivity.
  - pose proof (sys_call_trace _ _ _ _ H1) as T1.
    eexists _, _. split; [reflexivity|]. repeat split; try discriminate.
    right. exact T1.
Qed.

Lemma get_banner_emits (s : sock) (ok : call -> Prop) :
  ok (sock_settimeout s 1) -> ok (sock_recv s 1024) -> emits (get_banner (P := P) s) ok.
Proof.
  intros H1 H2. unfold get_banner.
  apply emits_try; [|intros; apply emits_ret].
  apply emits_bind; [by apply emits_call|]. intros _.
  apply emits_bind; [by apply emits_call|]. intros data. apply emits_ret.
Qed.

End BannerFacts.

(** ** scan_port *)

Definition is_socket_socket (c : call) : bool :=
  match c with socket_socket _ _ => true | _ => false end.

Definition is_recv (c : call) : bool :=
  match c with sock_recv _ _ => true | _ => false end.

(** The number of sockets opened in a trace. *)
Definition sockets_opened (tr : list call) : nat :=
  length (filter (fun c => is_socket_socket c = true) tr).

Lemma sockets_opened_app (tr1 tr2 : list call) :
  sockets_opened (tr1 ++ tr2) = (sockets_opened tr1 + sockets_opened tr2)%nat.
Proof. unfold sockets_opened. by rewrite filter_app, length_app. Qed.

Lemma sockets_opened_quiet (tr : list call) :
  Forall (fun c => is_socket_socket c = false) tr -> sockets_opened tr = 0%nat.
Proof.
  unfold sockets_opened. induction 1 as [|c tr Hc _ IH]; [reflexivity|].
  rewrite filter_cons_False by congruence. exact IH.
Qed.

Section Inversion.
Context {P : platform}.

Lemma bind_ret_inv {A B : Type} (m : M P A) (k : A -> M P B) (st st' : state P) (b : B) :
  bind m k st = (Ret b, st') ->
  exists a st1, m st = (Ret a, st1) /\ k a st1 = (Ret b, st').
Proof.
  unfold bind. destruct (m st) as [[a|e|] st1]; try discriminate. eauto.
Qed.

Lemma do_call_ret_inv (c : call) (st st' : state P) (a : reply c) :
  do_call c st = (Ret a, st') -> sys_call c st = (Ok a, st').
Proof.
  unfold do_call. destruct (sys_call c st) as [[a'|e] st1]; intros [= <- <-]; reflexivity.
Qed.

Lemma finally_ret_inv {A : Type} (m : M P A) (fin : M P unit) (st st' : state P) (a : A) :
  finally m fin st = (Ret a, st') ->
  exists st1, m st = (Ret a, st1) /\ fin st1 = (Ret tt, st').
Proof.
  unfold finally. destruct (m st) as [[a'|e|] st1]; try discriminate;
    destruct (fin st1) as [[[]|e'|] st2] eqn:Hfin; try discriminate;
    intros [= <- <-]; eauto.
Qed.

Lemma try_none_some_inv {A : Type} (m : M P (option A)) (catches : exn -> bool)
    (st st' : state P) (a : A) :
  try_except m catches (fun _ => ret None) st = (Ret (Some a), st') ->
  m st = (Ret (Some a), st').
Proof.
  unfold try_except. destruct (m st) as [[a'|e|] st1]; try discriminate; [auto|].
  destruct (catches e); discriminate.
Qed.

End Inversion.

Section ProbeFacts.
Context {P : platform}.

Lemma open_record_inv (s : sock) (ip : string) (port : Z) (st st' : state P)
    (r : ProbeResult) :
  open_record s ip port st = (Ret r, st') ->
  r_ip r = ip /\ r_port r = port /\ r_status r = "open" /\
  r_service r = service_of port /\
  exists stb : state P,
    sys_call datetime_now_isoformat stb = (Ok (r_timestamp r), st') /\
    if String.eqb (service_of port) "Unknown"
    then r_banner r = [] /\ stb = st
    else get_banner s st = (Ret (r_banner r), stb).
Proof.
  unfold open_record, bind, do_call, ret.
  destruct (String.eqb (service_of port) "Unknown") eqn:Hs.
  - destruct (sys_call datetime_now_isoformat st) as [[stamp|e] st1] eqn:Hd;
      intros [= <- <-]. simpl. repeat split. exists st. auto.
  - destruct (get_banner s st) as [[b|e|] stb] eqn:Hb; try discriminate.
    destruct (sys_call datetime_now_isoformat stb) as [[stamp|e] st1] eqn:Hd;
      intros [= <- <-]. simpl. repeat split. exists stb. auto.
Qed.

Lemma poll_once_emits (s : sock) (ip : string) (port : Z) (ok : call -> Prop) :
  ok (sock_connect_ex s ip port) -> emits (poll_once (P := P) s ip port) ok.
Proof.
  intros Hok. unfold poll_once.
  apply emits_try; [|intros; apply emits_ret].
  apply emits_bind; [by apply (emits_call (sock_connect_ex s ip port))|].
  intros rc. apply emits_ret.
Qed.

Lemma poll_emits (budget : nat) (s : sock) (ip : string) (port : Z)
    (start timeout : Q) (ok : call -> Prop) :
  ok time_time -> ok (sock_connect_ex s ip port) -> ok (time_sleep 0.01) ->
  emits (poll (P := P) budget s ip port start timeout) ok.
Proof.
  intros H1 H2 H3. induction budget as [|budget IH]; simpl.
  - apply emits_spin.
  - apply emits_bind; [by apply (emits_call time_time)|]. intros now.
    destruct (Qltb (now - start) timeout); [|apply emits_ret].
    apply emits_bind; [by apply poll_once_emits|]. intros [|]; [apply emits_ret|].
    apply emits_bind; [by apply (emits_call (time_sleep 0.01))|]. intros _. exact IH.
Qed.

Lemma connect_phase_emits (budget : nat) (ip : string) (port : Z) (timeout : Q)
    (s : sock) (ok : call -> Prop) :
  ok (sock_settimeout s timeout) -> ok (sock_setblocking s false) ->
  ok time_time -> ok (sock_connect s ip port) ->
  ok (sock_connect_ex s ip port) -> ok (time_sleep 0.01) ->
  emits (connect_phase (P := P) budget ip port timeout s) ok.
Proof.
  intros H1 H2 H3 H4 H5 H6. unfold connect_phase.
  apply emits_bind; [by apply (emits_call (sock_settimeout s timeout))|]. intros _.
  apply emits_bind; [by apply (emits_call (sock_setblocking s false))|]. intros _.
  apply emits_bind; [by apply (emits_call time_time)|]. intros start.
  apply emits_bind.
  - unfold first_connect.
    apply emits_try; [by apply (emits_call (sock_connect s ip port))|].
    intros; apply emits_ret.
  - intros _. by apply poll_emits.
Qed.

Lemma scan_body_emits (budget : nat) (ip : string) (port : Z) (timeout : Q)
    (s : sock) :
  emits (scan_body (P := P) budget ip port timeout s)
        (fun c => is_socket_socket c = false).
Proof.
  unfold scan_body. apply emits_bind; [by apply connect_phase_emits|].
  intros [|]; [|apply emits_ret].
  apply emits_bind; [|intros; apply emits_ret].
  unfold open_record. apply emits_bind.
  - destruct (String.eqb _ _); [apply emits_ret | by apply get_banner_emits].
  - intros b. apply emits_bind; [by apply (emits_call datetime_now_isoformat)|].
    intros; apply emits_ret.
Qed.

(** Every run of scan_port opens exactly one socket, an AF_INET stream
    socket, and that is the first thing it does. *)
Lemma scan_port_trace (budget : nat) (ip : string) (port : Z) (timeout : Q)
    (st st' : state P) (o : outcome (option ProbeResult)) :
  scan_port budget ip port timeout st = (o, st') ->
  exists tr : list call,
    st_trace st' = st_trace st ++ socket_socket AF_INET SOCK_STREAM :: tr /\
    Forall (fun c => is_socket_socket c = false) tr.
Proof.
  unfold scan_port, try_except, with_socket, bind, do_call.
  destruct (sys_call (socket_socket AF_INET SOCK_STREAM) st) as [[s|e] st0] eqn:H0;
    apply sys_call_trace in H0.
  - destruct (finally _ _ st0) as [o1 st1] eqn:Hf.
    assert (Hem : emits (finally (scan_body (P := P) budget ip port timeout s)
                           (do_call (sock_close s)))
                    (fun c => is_socket_socket c = false)).
    { apply emits_finally;
        [apply scan_body_emits | by apply (emits_call (sock_close s))]. }
    apply Hem in Hf as (tr & Htr & Hok).
    assert (st_trace st1 = st_trace st ++ socket_socket AF_INET SOCK_STREAM :: tr).
    { rewrite Htr, H0, <- app_assoc. reflexivity. }
    destruct o1 as [a|e|]; simpl; intros [= _ <-]; eauto.
  - simpl. intros [= _ <-]. exists []. split; [exact H0 | constructor].
Qed.

(** scan_port never raises: whatever the operating system answers, a run
    of scan_port ends with a value, or is still polling. *)
Lemma scan_port_never_raises (budget : nat) (ip : string) (port : Z) (timeout : Q) :
  never_raises (scan_port (P := P) budget ip port timeout).
Proof.
  unfold scan_port. apply try_any_never_raises. intros _. apply ret_never_raises.
Qed.

Lemma scan_port_inv (budget : nat) (ip : string) (port : Z) (timeout : Q)
    (st st' : state P) (r : ProbeResult) :
  scan_port budget ip port timeout st = (Ret (Some r), st') ->
  exists (s : sock) (st0 st1 st2 : state P),
    sys_call (socket_socket AF_INET SOCK_STREAM) st = (Ok s, st0) /\
    connect_phase budget ip port timeout s st0 = (Ret true, st1) /\
    open_record s ip port st1 = (Ret r, st2) /\
    sys_call (sock_close s) st2 = (Ok tt, st').
Proof.
  intros H. unfold scan_port in H. apply try_none_some_inv in H.
  unfold with_socket in H. apply bind_ret_inv in H as (s & st0 & H0 & H).
  apply do_call_ret_inv in H0.
  apply finally_ret_inv in H as (st2 & Hbody & Hclose).
  apply (do_call_ret_inv (sock_close s)) in Hclose.
  unfold scan_body in Hbody. apply bind_ret_inv in Hbody as (ready & st1 & Hphase & Hrec).
  destruct ready; [|discriminate].
  apply bind_ret_inv in Hrec as (r' & st2' & Hrec & [= -> ->]).
  exists s, st0, st1, st2. auto.
Qed.

(** C3. Whenever scan_port returns a record, its service is the entry of
    the 23-entry table COMMON_PORTS at the port, or [Unknown] when the
    table has no entry.  When the service is [Unknown] the banner is
    empty, and between the end of polling and the timestamp scan_port
    makes no call: no [recv] occurs in the whole scan.  Otherwise the
    banner is what get_banner returns on the connected socket, run right
    after polling. *)
Theorem scan_port_service_and_banner (budget : nat) (ip : string) (port : Z)
    (timeout : Q) (st st' : state P) (r : ProbeResult) :
  scan_port budget ip port timeout st = (Ret (Some r), st') ->
  size COMMON_PORTS = 23%nat /\
  r_ip r = ip /\ r_port r = port /\ r_status r = "open" /\
  r_service r = default "Unknown" (COMMON_PORTS !! port) /\
  exists (s : sock) (st1 : state P) (pre : list call),
    st_trace st1 = st_trace st ++ pre /\
    Forall (fun c => is_recv c = false) pre /\
    if String.eqb (r_service r) "Unknown"
    then r_banner r = [] /\
         st_trace st' = st_trace st1 ++ [datetime_now_isoformat; sock_close s]
    else exists stb : state P,
         get_banner s st1 = (Ret (r_banner r), stb) /\
         st_trace st' = st_trace stb ++ [datetime_now_isoformat; sock_close s].
Proof.
  intros H. apply scan_port_inv in H as (s & st0 & st1 & st2 & H0 & Hphase & Hrec & Hclose).
  apply sys_call_trace in H0.
  apply (connect_phase_emits _ _ _ _ _ (fun c => is_recv c = false))
    in Hphase as (tr & Htr & Hquiet); try reflexivity.
  assert (Hpre : st_trace st1 = st_trace st ++ socket_socket AF_INET SOCK_STREAM :: tr)
    by (rewrite Htr, H0, <- app_assoc; reflexivity).
  assert (Hquiet' : Forall (fun c => is_recv c = false)
                      (socket_socket AF_INET SOCK_STREAM :: tr)) by (by constructor).
  revert Hpre Hquiet'. generalize (socket_socket AF_INET SOCK_STREAM :: tr).
  intros pre Hpre Hquiet'. clear Hquiet. rename Hquiet' into Hquiet.
  apply open_record_inv in Hrec as (Hip & Hport & Hstatus & Hservice & stb & Hstamp & Hbanner).
  apply sys_call_trace in Hclose, Hstamp.
  split; [reflexivity|]. repeat (split; [assumption|]).
  exists s, st1, pre. repeat (split; [assumption|]).
  rewrite Hservice. destruct (String.eqb (service_of port) "Unknown").
  - destruct Hbanner as [Hb ->]. split; [exact Hb|].
    rewrite Hclose, Hstamp, <- app_assoc. reflexivity.
  - exists stb. split; [exact Hbanner|].
    rewrite Hclose, Hstamp, <- app_assoc. reflexivity.
Qed.

End ProbeFacts.

(** ** Termination of the polling loop *)

(** The clock assumption under which polling ends: the world has a clock
    that never runs backwards, [time.time()] reads it, and a sleep that
    returns has let at least the requested time pass. *)
Record ticking (P : platform) (clock : world P -> Q) : Prop := {
  tick_mono : forall (c : call) (w : world P),
    (clock w <= clock (snd (sys P c w)))%Q;
  tick_read : forall (w w' : world P) (t : Q),
    sys P time_time w = (Ok t, w') -> (clock w <= t <= clock w')%Q;
  tick_sleep : forall (d : Q) (w w' : world P),
    sys P (time_sleep d) w = (Ok tt, w') -> (clock w + d <= clock w')%Q
}.

(** A loop budget that suffices for a given timeout: one evaluation of
    the loop condition for every hundredth of a second, and one more. *)
Definition poll_budget (timeout : Q) : nat :=
  S (Z.to_nat (Qceiling (100 * timeout))).

Lemma Qltb_lt (x y : Q) : Qltb x y = true <-> (x < y)%Q.
Proof.
  unfold Qltb. rewrite negb_true_iff, <- not_true_iff_false, Qle_bool_iff.
  split; [apply Qnot_le_lt | apply Qlt_not_le].
Qed.

Lemma poll_budget_enough (timeout : Q) (budget : nat) :
  (poll_budget timeout <= budget)%nat ->
  (100 * timeout <= inject_Z (Z.of_nat budget) - 1)%Q.
Proof.
  unfold poll_budget. intros Hb.
  apply Qle_trans with (inject_Z (Qceiling (100 * timeout))); [apply Qle_ceiling|].
  replace (inject_Z (Z.of_nat budget) - 1)%Q with (inject_Z (Z.of_nat budget) + inject_Z (-1))%Q
    by reflexivity.
  rewrite <- inject_Z_plus. rewrite <- Zle_Qle. lia.
Qed.

Section Ticking.
Context {P : platform} (clock : world P -> Q) (Htick : ticking P clock).

Lemma sys_call_clock (c : call) (st st' : state P) (r : res (reply c)) :
  sys_call c st = (r, st') -> (clock (st_world st) <= clock (st_world st'))%Q.
Proof.
  unfold sys_call. pose proof (tick_mono P clock Htick c (st_world st)) as Hm.
  destruct (sys P c (st_world st)) as [r' w]. intros [= _ <-]. exact Hm.
Qed.

Lemma poll_settles (budget : nat) (s : sock) (ip : string) (port : Z)
    (start timeout : Q) (st : state P) :
  (1 <= budget)%nat ->
  (100 * (timeout - (clock (st_world st) - start)) <= inject_Z (Z.of_nat budget) - 1)%Q ->
  fst (poll budget s ip port start timeout st) <> Spin.
Proof.
  revert st. induction budget as [|budget IH]; intros st Hpos Hb; [lia|].
  simpl. unfold bind at 1, do_call at 1.
  destruct (sys_call time_time st) as [[now|e] st1] eqn:Hnow; [|discriminate].
  assert (Hread : (clock (st_world st) <= now <= clock (st_world st1))%Q).
  { unfold sys_call in Hnow.
    destruct (sys P time_time (st_world st)) as [r w] eqn:Hs.
    injection Hnow as -> <-. simpl. eapply tick_read; eauto. }
  destruct (Qltb (now - start) timeout) eqn:Hlt; [|discriminate].
  apply Qltb_lt in Hlt.
  unfold bind at 1. destruct (poll_once s ip port st1) as [[ready|e|] st2] eqn:Honce.
  - assert (H12 : (clock (st_world st1) <= clock (st_world st2))%Q).
    { revert Honce. unfold poll_once, try_except, bind, do_call.
      destruct (sys_call (sock_connect_ex s ip port) st1) as [[rc|e] st2'] eqn:Hex;
        apply sys_call_clock in Hex; intros [= _ <-]; exact Hex. }
    destruct ready; [discriminate|].
    unfold bind at 1, do_call at 1.
    destruct (sys_call (time_sleep 0.01) st2) as [[[]|e] st3] eqn:Hsleep; [|discriminate].
    assert (H23 : (clock (st_world st2) + 0.01 <= clock (st_world st3))%Q).
    { unfold sys_call in Hsleep.
      destruct (sys P (time_sleep 0.01) (st_world st2)) as [r w] eqn:Hs.
      injection Hsleep as -> <-. simpl. eapply tick_sleep; eauto. }
    assert (Hinj : (inject_Z (Z.of_nat (S budget)) == inject_Z (Z.of_nat budget) + 1)%Q).
    { rewrite Nat2Z.inj_succ. unfold Z.succ. rewrite inject_Z_plus. reflexivity. }
    rewrite Hinj in Hb.
    apply IH.
    + assert (0 < inject_Z (Z.of_nat budget))%Q as Hq by lra.
      replace 0%Q with (inject_Z 0) in Hq by reflexivity.
      rewrite <- Zlt_Qlt in Hq. lia.
    + lra.
  - discriminate.
  - exfalso. revert Honce. unfold poll_once, try_except, bind, do_call.
    destruct (sys_call (sock_connect_ex s ip port) st1) as [[rc|e] st2']; discriminate.
Qed.

End Ticking.

Section Returns.
Context {P : platform} (clock : world P -> Q) (Htick : ticking P clock).

Lemma connect_phase_settles (budget : nat) (ip : string) (port : Z) (timeout : Q)
    (s : sock) (st : state P) :
  (poll_budget timeout <= budget)%nat ->
  fst (connect_phase budget ip port timeout s st) <> Spin.
Proof.
  intros Hb. unfold connect_phase.
  unfold bind at 1, do_call at 1.
  destruct (sys_call (sock_settimeout s timeout) st) as [[[]|e] sta]; [|discriminate].
  unfold bind at 1, do_call at 1.
  destruct (sys_call (sock_setblocking s false) sta) as [[[]|e] stb]; [|discriminate].
  unfold bind at 1, do_call at 1.
  destruct (sys_call time_time stb) as [[start|e] stc] eqn:Hnow; [|discriminate].
  assert (Hread : (start <= clock (st_world stc))%Q).
  { unfold sys_call in Hnow.
    destruct (sys P time_time (st_world stb)) as [r w] eqn:Hs.
    injection Hnow as -> <-. simpl. eapply tick_read; eauto. }
  unfold bind at 1.
  destruct (first_connect s ip port stc) as [[[]|e|] std] eqn:Hfc; try discriminate.
  - assert (Hcd : (clock (st_world stc) <= clock (st_world std))%Q).
    { revert Hfc. unfold first_connect, try_except, do_call.
      destruct (sys_call (sock_connect s ip port) stc) as [[[]|e] std'] eqn:Hc;
        apply (sys_call_clock clock Htick) in Hc;
        [|destruct (only_BlockingIOError e)]; intros [= <-]; exact Hc. }
    apply (poll_settles clock Htick).
    + unfold poll_budget in Hb. lia.
    + pose proof (poll_budget_enough timeout budget Hb). lra.
  - exfalso. revert Hfc. unfold first_connect, try_except, do_call.
    destruct (sys_call (sock_connect s ip port) stc) as [[[]|e] std'];
      [|destruct (only_BlockingIOError e)]; discriminate.
Qed.

(** With a ticking clock and a sufficient loop budget, scan_port returns:
    a record or [None], never an exception. *)
Lemma scan_port_returns (budget : nat) (ip : string) (port : Z) (timeout : Q)
    (st : state P) :
  (poll_budget timeout <= budget)%nat ->
  exists (r : option ProbeResult) (st' : state P),
    scan_port budget ip port timeout st = (Ret r, st').
Proof.
  intros Hb.
  destruct (scan_port budget ip port timeout st) as [[r|e|] st'] eqn:Hrun; [eauto| |].
  - exfalso. eapply (scan_port_never_raises budget ip port timeout st e).
    rewrite Hrun. reflexivity.
  - exfalso. revert Hrun. unfold scan_port, try_except, with_socket.
    unfold bind at 1, do_call at 1.
    destruct (sys_call (socket_socket AF_INET SOCK_STREAM) st) as [[s|e] st0];
      [|discriminate].
    unfold finally, scan_body. unfold bind at 1.
    pose proof (connect_phase_settles budget ip port timeout s st0 Hb) as Hphase.
    destruct (connect_phase budget ip port timeout s st0) as [[ready|e|] st1];
      [| |contradiction].
    + assert (Hclose : forall st2, fst (do_call (P := P) (sock_close s) st2) <> Spin).
      { intros st2. unfold do_call. destruct (sys_call (sock_close s) st2) as [[[]|e] st3];
          discriminate. }
      destruct ready.
      * unfold bind at 1.
        destruct (open_record s ip port st1) as [[r|e|] st2] eqn:Hrec.
        -- unfold ret at 1. specialize (Hclose st2).
           destruct (do_call (sock_close s) st2) as [[[]|e|] st3];
             [discriminate|discriminate|contradiction].
        -- specialize (Hclose st2).
           destruct (do_call (sock_close s) st2) as [[[]|e'|] st3];
             [discriminate|discriminate|contradiction].
        -- exfalso. revert Hrec. unfold open_record. unfold bind at 1.
           destruct (String.eqb (service_of port) "Unknown").
           ++ unfold ret at 1, bind, do_call.
              destruct (sys_call datetime_now_isoformat st1) as [[stamp|e] st2']; discriminate.
           ++ destruct (get_banner_returns s st1) as (b & stb & ->).
              unfold bind, do_call.
              destruct (sys_call datetime_now_isoformat stb) as [[stamp|e] st2']; discriminate.
      * unfold ret at 1. specialize (Hclose st1).
        destruct (do_call (sock_close s) st1) as [[[]|e|] st3];
          [discriminate|discriminate|contradiction].
    + assert (Hclose : fst (do_call (P := P) (sock_close s) st1) <> Spin).
      { unfold do_call. destruct (sys_call (sock_close s) st1) as [[[]|e'] st3];
          discriminate. }
      destruct (do_call (sock_close s) st1) as [[[]|e'|] st3];
        [discriminate|discriminate|contradiction].
Qed.

End Returns.

Section Absence.
Context {P : platform}.




End Absence.

(** ** The moves of a task *)

Section Moves.
Context {P : platform}.

(** The moves [task_step] allows, one constructor for each.  A task never
    moves to [Failed]: scan_port does not raise. *)
Inductive task_moves (c : scan_config) (tid : nat) (pl : pool P)
    : task -> process P -> task -> Prop :=
| move_start (ports : list Z) :
    can_start (c_max_workers c) tid (tasks pl) = true ->
    task_moves c tid pl (Queued ports) (proc pl) (Running ports)
| move_exit :
    task_moves c tid pl (Running []) (proc pl) Finished
| move_open (port : Z) (rest : list Z) (r : ProbeResult) (st : state P) :
    scan_port (c_budget c) (c_ip c) port (c_timeout c) (p_os (proc pl))
      = (Ret (Some r), st) ->
    task_moves c tid pl (Running (port :: rest)) (set_os (proc pl) st) (Locking r rest)
| move_closed (port : Z) (rest : list Z) (st : state P) :
    scan_port (c_budget c) (c_ip c) port (c_timeout c) (p_os (proc pl))
      = (Ret None, st) ->
    task_moves c tid pl (Running (port :: rest)) (set_os (proc pl) st) (Running rest)
| move_lock (r : ProbeResult) (rest : list Z) :
    results_lock (proc pl) = None ->
    task_moves c tid pl (Locking r rest) (set_lock (proc pl) (Some tid)) (Appending r rest)
| move_append (r : ProbeResult) (rest : list Z) :
    task_moves c tid pl (Appending r rest) (append_result (proc pl) r) (Unlocking r rest)
| move_unlock (r : ProbeResult) (rest : list Z) :
    task_moves c tid pl (Unlocking r rest) (set_lock (proc pl) None) (Logging r rest)
| move_log (r : ProbeResult) (rest : list Z) :
    task_moves c tid pl (Logging r rest)
      (logging INFO (MsgOpen (c_ip c) (r_port r) (r_service r) (r_banner r)) (proc pl))
      (Running rest).

Lemma task_step_moves (c : scan_config) (tid : nat) (pl : pool P)
    (p' : process P) (t' : task) :
  task_step c tid pl = Some (p', t') ->
  exists t : task, tasks pl !! tid = Some t /\ task_moves c tid pl t p' t'.
Proof.
  unfold task_step.
  destruct (tasks pl !! tid) as [[ports|[|port rest]|r rest|r rest|r rest|r rest| |e]|]
    eqn:Ht; try discriminate.
  - destruct (can_start _ _ _) eqn:Hs; [|discriminate].
    intros [= <- <-]. eexists. split; [reflexivity|]. by constructor.
  - intros [= <- <-]. eexists. split; [reflexivity|]. constructor.
  - destruct (scan_port _ _ _ _ _) as [[[r|]|e|] st] eqn:Hrun; try discriminate.
    + intros [= <- <-]. eexists. split; [reflexivity|]. by constructor.
    + intros [= <- <-]. eexists. split; [reflexivity|]. by constructor.
    + exfalso. eapply (scan_port_never_raises (P := P) _ _ _ _ _ e).
      rewrite Hrun. reflexivity.
  - destruct (results_lock (proc pl)) eqn:Hl; [discriminate|].
    intros [= <- <-]. eexists. split; [reflexivity|]. by constructor.
  - intros [= <- <-]. eexists. split; [reflexivity|]. constructor.
  - intros [= <- <-]. eexists. split; [reflexivity|]. constructor.
  - intros [= <- <-]. eexists. split; [reflexivity|]. constructor.
Qed.

Lemma moves_task_step (c : scan_config) (tid : nat) (pl : pool P)
    (t : task) (p' : process P) (t' : task) :
  tasks pl !! tid = Some t -> task_moves c tid pl t p' t' ->
  task_step c tid pl = Some (p', t').
Proof.
  intros Ht Hm. unfold task_step. rewrite Ht.
  destruct Hm as [ports Hs| |port rest r st Hrun|port rest st Hrun|r rest Hl|r rest|r rest|r rest];
    try reflexivity.
  - by rewrite Hs.
  - by rewrite Hrun.
  - by rewrite Hrun.
  - by rewrite Hl.
Qed.

Lemma run_pool_cons (c : scan_config) (tid : nat) (sched : list nat) (pl : pool P) :
  run_pool c (tid :: sched) pl = run_pool c sched (pool_step c tid pl).
Proof. reflexivity. Qed.

Lemma run_pool_app (c : scan_config) (s1 s2 : list nat) (pl : pool P) :
  run_pool c (s1 ++ s2) pl = run_pool c s2 (run_pool c s1 pl).
Proof. unfold run_pool. apply foldl_app. Qed.

(** A property kept by every move holds after every schedule. *)
Lemma run_pool_invariant (c : scan_config) (Inv : pool P -> Prop) :
  (forall pl tid t p' t',
      Inv pl -> tasks pl !! tid = Some t -> task_moves c tid pl t p' t' ->
      Inv {| proc := p'; tasks := <[tid := t']> (tasks pl) |}) ->
  forall (sched : list nat) (pl : pool P), Inv pl -> Inv (run_pool c sched pl).
Proof.
  intros Hstep sched. induction sched as [|tid sched IH]; intros pl Hpl; [exact Hpl|].
  rewrite run_pool_cons. apply IH. unfold pool_step.
  destruct (task_step c tid pl) as [[p' t']|] eqn:Hs; [|exact Hpl].
  apply task_step_moves in Hs as (t & Ht & Hm). eauto.
Qed.

End Moves.

(** ** The lock *)

(** The stages between acquiring and releasing [results_lock]. *)
Definition in_section (t : task) : bool :=
  match t with Appending _ _ | Unlocking _ _ => true | _ => false end.

Section Lock.
Context {P : platform}.

(** The lock is held by task [tid] exactly when task [tid] is inside the
    [with results_lock] block. *)
Definition lock_ok (pl : pool P) : Prop :=
  forall tid : nat,
    (exists t, tasks pl !! tid = Some t /\ in_section t = true) <->
    results_lock (proc pl) = Some tid.

Lemma lock_ok_step (c : scan_config) (pl : pool P) (tid : nat) (t : task)
    (p' : process P) (t' : task) :
  lock_ok pl -> tasks pl !! tid = Some t -> task_moves c tid pl t p' t' ->
  lock_ok {| proc := p'; tasks := <[tid := t']> (tasks pl) |}.
Proof.
  intros Hinv Ht Hm tid'. simpl.
  assert (Hlen : (tid < length (tasks pl))%nat) by (eapply lookup_lt_Some; eauto).
  destruct (decide (tid = tid')) as [<-|Hne].
  - rewrite list_lookup_insert_eq by exact Hlen.
    specialize (Hinv tid). rewrite Ht in Hinv.
    destruct Hm; simpl in *; split;
      try (intros (t0 & [= <-] & Hsec); simpl in Hsec; try discriminate);
      try reflexivity;
      try (intros Hl; apply Hinv in Hl as (t0 & [= <-] & Hsec); discriminate);
      try (intros _; eexists; split; reflexivity);
      try congruence.
    + apply Hinv. eauto.
  - rewrite list_lookup_insert_ne by exact Hne.
    pose proof (Hinv tid') as Hinv'. pose proof (Hinv tid) as Hinv0. rewrite Ht in Hinv0.
    destruct Hm; simpl in *; try exact Hinv'.
    + split; [|congruence]. intros Hsec. apply Hinv' in Hsec. congruence.
    + split; [|congruence]. intros Hsec. apply Hinv' in Hsec.
      assert (results_lock (proc pl) = Some tid) by (apply Hinv0; eauto). congruence.
Qed.

Lemma lock_ok_run (c : scan_config) (sched : list nat) (pl : pool P) :
  lock_ok pl -> lock_ok (run_pool c sched pl).
Proof.
  apply (run_pool_invariant c lock_ok). intros. eapply lock_ok_step; eauto.
Qed.

(** The pool fast_scan starts from satisfies the discipline when the lock
    is free. *)
Lemma lock_ok_submitted (p : process P) (batches : list (list Z)) :
  results_lock p = None -> lock_ok (submitted p batches).
Proof.
  intros Hl tid. simpl. rewrite Hl. split; [|discriminate].
  intros (t & Ht & Hsec). rewrite list_lookup_fmap in Ht.
  destruct (batches !! tid); simpl in Ht; [injection Ht as <-; discriminate Hsec | discriminate Ht].
Qed.

(** Two tasks are never inside the block at once. *)
Lemma lock_ok_exclusive (pl : pool P) (i j : nat) (ti tj : task) :
  lock_ok pl ->
  tasks pl !! i = Some ti -> in_section ti = true ->
  tasks pl !! j = Some tj -> in_section tj = true ->
  i = j.
Proof.
  intros Hinv Hi Hsi Hj Hsj.
  assert (results_lock (proc pl) = Some i) by (apply Hinv; eauto).
  assert (results_lock (proc pl) = Some j) by (apply Hinv; eauto).
  congruence.
Qed.

(** A turn changes [scan_results] only by appending one record, and only
    when the task that moves is at the append stage. *)
Lemma pool_step_results (c : scan_config) (tid : nat) (pl : pool P) :
  scan_results (proc (pool_step c tid pl)) = scan_results (proc pl) \/
  exists r rest,
    tasks pl !! tid = Some (Appending r rest) /\
    scan_results (proc (pool_step c tid pl)) = scan_results (proc pl) ++ [r].
Proof.
  unfold pool_step. destruct (task_step c tid pl) as [[p' t']|] eqn:Hs; [|by left].
  apply task_step_moves in Hs as (t & Ht & Hm). simpl.
  destruct Hm; try (by left). right. eauto.
Qed.

End Lock.

(** ** Records and probes along a schedule *)

(** The record a task has obtained from scan_port and not yet appended. *)
Definition in_flight (t : task) : list ProbeResult :=
  match t with Locking r _ | Appending r _ => [r] | _ => [] end.

(** The ports a task has still to scan. *)
Definition remaining (t : task) : list Z :=
  match t with
  | Queued ports | Running ports => ports
  | Locking _ rest | Appending _ rest | Unlocking _ rest | Logging _ rest => rest
  | Finished | Failed _ => []
  end.

Section Records.
Context {P : platform}.

(** The record scan_port hands to task [tid] in this turn, if the turn is
    a probe that finds the port open. *)
Definition step_produced (c : scan_config) (tid : nat) (pl : pool P)
    : list ProbeResult :=
  match tasks pl !! tid with
  | Some (Running (port :: _)) =>
      match scan_port (c_budget c) (c_ip c) port (c_timeout c) (p_os (proc pl)) with
      | (Ret (Some r), _) => [r]
      | _ => []
      end
  | _ => []
  end.

(** The records scan_port hands out along a schedule, in order. *)
Fixpoint produced (c : scan_config) (sched : list nat) (pl : pool P)
    : list ProbeResult :=
  match sched with
  | [] => []
  | tid :: sched' => step_produced c tid pl ++ produced c sched' (pool_step c tid pl)
  end.





Lemma bind_insert_perm {A : Type} (f : task -> list A) (ts : list task)
    (i : nat) (t t' : task) :
  ts !! i = Some t ->
  (<[i := t']> ts ≫= f) ++ f t ≡ₚ (ts ≫= f) ++ f t'.
Proof.
  intros Hi. rewrite <- (take_drop_middle ts i t Hi) at 2.
  rewrite insert_take_drop by (eapply lookup_lt_Some; eauto).
  rewrite !bind_app, !bind_cons. solve_Permutation.
Qed.

Lemma pool_step_records (c : scan_config) (tid : nat) (pl : pool P) :
  scan_results (proc (pool_step c tid pl)) ++ (tasks (pool_step c tid pl) ≫= in_flight)
  ≡ₚ scan_results (proc pl) ++ (tasks pl ≫= in_flight) ++ step_produced c tid pl.
Proof.
  unfold pool_step, step_produced.
  destruct (task_step c tid pl) as [[p' t']|] eqn:Hs.
  - apply task_step_moves in Hs as (t & Ht & Hm). rewrite Ht. simpl.
    pose proof (bind_insert_perm in_flight (tasks pl) tid t t' Ht) as Hperm.
    destruct Hm as [ports Hcs| |port rest r st Hrun|port rest st Hrun|r rest Hl|r rest|r rest|r rest];
      simpl in *; rewrite ?Hrun, ?app_nil_r in *.
    + by rewrite Hperm.
    + by rewrite Hperm.
    + by rewrite Hperm.
    + by rewrite Hperm.
    + apply Permutation_app_inv_r in Hperm. by rewrite Hperm.
    + rewrite <- Hperm. solve_Permutation.
    + by rewrite Hperm.
    + by rewrite Hperm.
  - unfold task_step in Hs.
    destruct (tasks pl !! tid) as [[ports|[|port rest]|r rest|r rest|r rest|r rest| |e]|];
      rewrite ?app_nil_r; try reflexivity.
    destruct (scan_port _ _ _ _ _) as [[[r|]|e|] st]; try discriminate.
    by rewrite app_nil_r.
Qed.

(** No record is lost: at any point of any schedule, the records in
    [scan_results] together with those in flight are the records that
    were there at the start together with those scan_port has handed out
    since. *)
Lemma run_pool_records (c : scan_config) (sched : list nat) (pl : pool P) :
  scan_results (proc (run_pool c sched pl)) ++ (tasks (run_pool c sched pl) ≫= in_flight)
  ≡ₚ scan_results (proc pl) ++ (tasks pl ≫= in_flight) ++ produced c sched pl.
Proof.
  revert pl. induction sched as [|tid sched IH]; intros pl.
  - simpl. by rewrite app_nil_r.
  - rewrite run_pool_cons, IH. simpl.
    rewrite (app_assoc (scan_results _)), pool_step_records.
    rewrite <- !app_assoc. reflexivity.
Qed.

(** [scan_results] only grows at its end. *)
Lemma run_pool_prefix (c : scan_config) (sched : list nat) (pl : pool P) :
  scan_results (proc pl) `prefix_of` scan_results (proc (run_pool c sched pl)).
Proof.
  revert pl. induction sched as [|tid sched IH]; intros pl; [reflexivity|].
  rewrite run_pool_cons. etransitivity; [|apply IH].
  destruct (pool_step_results c tid pl) as [->|(r & rest & _ & ->)];
    [reflexivity | by apply prefix_app_r].
Qed.

Lemma done_not_in_flight (ts : list task) :
  forallb is_done ts = true -> ts ≫= in_flight = [].
Proof.
  induction ts as [|t ts IH]; [reflexivity|].
  intros H. simpl in H. apply andb_true_iff in H as [Ht Hts].
  rewrite bind_cons, IH by exact Hts.
  destruct t; try discriminate; reflexivity.
Qed.

Lemma queued_not_in_flight (batches : list (list Z)) :
  (Queued <$> batches) ≫= in_flight = [].
Proof.
  induction batches as [|b bs IH]; [reflexivity|].
  rewrite fmap_cons, bind_cons, IH. reflexivity.
Qed.








End Records.

(** ** Progress and completion of the pool *)

(** An upper bound on the turns a task can still take. *)
Definition weight (t : task) : nat :=
  match t with
  | Queued ports => 5 * length ports + 2
  | Running ports => 5 * length ports + 1
  | Locking _ rest => 5 * length rest + 5
  | Appending _ rest => 5 * length rest + 4
  | Unlocking _ rest => 5 * length rest + 3
  | Logging _ rest => 5 * length rest + 2
  | Finished | Failed _ => 0
  end%nat.

Definition pool_weight {P : platform} (pl : pool P) : nat :=
  sum_list (weight <$> tasks pl).

(** A task that can move whatever the other tasks do. *)
Definition is_free (t : task) : bool :=
  match t with
  | Running _ | Appending _ _ | Unlocking _ _ | Logging _ _ => true
  | _ => false
  end.

Definition is_locking (t : task) : bool :=
  match t with Locking _ _ => true | _ => false end.

Section Progress.
Context {P : platform} (clock : world P -> Q) (Htick : ticking P clock).

Lemma moves_weight (c : scan_config) (tid : nat) (pl : pool P) (t : task)
    (p' : process P) (t' : task) :
  task_moves c tid pl t p' t' -> (weight t' < weight t)%nat.
Proof. intros Hm. destruct Hm; simpl; lia. Qed.

Lemma sum_list_append (l1 l2 : list nat) :
  sum_list (l1 ++ l2) = (sum_list l1 + sum_list l2)%nat.
Proof. induction l1 as [|x l1 IH]; simpl; [reflexivity | rewrite IH; lia]. Qed.

Lemma filter_none {A : Type} (f : A -> bool) (l : list A) :
  Forall (fun x => f x <> true) l -> filter (fun x => f x = true) l = [].
Proof.
  induction 1 as [|x l Hx Hl IH]; [reflexivity|].
  rewrite filter_cons_False by exact Hx. exact IH.
Qed.

Lemma sum_list_insert (ts : list task) (i : nat) (t t' : task) :
  ts !! i = Some t ->
  (sum_list (weight <$> <[i := t']> ts) + weight t
   = sum_list (weight <$> ts) + weight t')%nat.
Proof.
  intros Hi. rewrite <- (take_drop_middle ts i t Hi) at 2.
  rewrite insert_take_drop by (eapply lookup_lt_Some; eauto).
  rewrite !fmap_app, !fmap_cons, !sum_list_append. simpl. lia.
Qed.

Lemma pool_step_weight (c : scan_config) (tid : nat) (pl : pool P)
    (p' : process P) (t' : task) :
  task_step c tid pl = Some (p', t') ->
  (pool_weight (pool_step c tid pl) < pool_weight pl)%nat.
Proof.
  intros Hs. unfold pool_step. rewrite Hs.
  apply task_step_moves in Hs as (t & Ht & Hm).
  apply moves_weight in Hm. unfold pool_weight. simpl.
  pose proof (sum_list_insert (tasks pl) tid t t' Ht). lia.
Qed.

(** While some task is not done, some task can move. *)
Lemma pool_progress (c : scan_config) (pl : pool P) :
  (poll_budget (c_timeout c) <= c_budget c)%nat ->
  1 <= c_max_workers c ->
  lock_ok pl ->
  all_done pl = false ->
  exists tid p' t', task_step c tid pl = Some (p', t').
Proof.
  intros Hb Hw Hlock Hnd.
  destruct (list_find (fun t => is_free t = true) (tasks pl)) as [[i t]|] eqn:Hfree.
  { apply list_find_Some in Hfree as (Hi & Ht & _).
    exists i. unfold task_step. rewrite Hi.
    destruct t as [ports|[|port rest]|r rest|r rest|r rest|r rest| |e];
      try discriminate; eauto.
    destruct (scan_port_returns clock Htick (c_budget c) (c_ip c) port (c_timeout c)
                (p_os (proc pl)) Hb) as ([r|] & st' & ->); eauto. }
  apply list_find_None in Hfree.
  assert (Hl : results_lock (proc pl) = None).
  { destruct (results_lock (proc pl)) as [h|] eqn:Hl; [|reflexivity]. exfalso.
    apply Hlock in Hl as (t & Ht & Hsec).
    eapply Forall_lookup_1 in Hfree; [|exact Ht]. apply Hfree.
    destruct t; try discriminate; reflexivity. }
  destruct (list_find (fun t => is_locking t = true) (tasks pl)) as [[i t]|] eqn:Hlk.
  { apply list_find_Some in Hlk as (Hi & Ht & _).
    exists i. unfold task_step. rewrite Hi.
    destruct t; try discriminate. rewrite Hl. eauto. }
  apply list_find_None in Hlk.
  destruct (list_find (fun t => is_queued t = true) (tasks pl)) as [[i t]|] eqn:Hq.
  { apply list_find_Some in Hq as (Hi & Ht & Hmin).
    exists i. unfold task_step. rewrite Hi.
    destruct t as [ports| | | | | | |]; try discriminate.
    assert (Hcs : can_start (c_max_workers c) i (tasks pl) = true).
    { unfold can_start. apply andb_true_iff. split.
      - apply forallb_forall. intros t Hin. apply list_elem_of_In in Hin.
        apply list_elem_of_lookup in Hin as (j & Hj).
        apply lookup_take_Some in Hj as (Hj & Hji).
        apply negb_true_iff, not_true_iff_false. eapply Hmin; eauto.
      - assert (Hnone : filter (fun t => is_active t = true) (tasks pl) = []).
        { apply filter_none. apply Forall_forall. intros t Hin Hact.
          apply list_elem_of_lookup in Hin as (j & Hj).
          pose proof (Forall_lookup_1 _ _ _ _ Hfree Hj) as Hf.
          pose proof (Forall_lookup_1 _ _ _ _ Hlk Hj) as Hk.
          destruct t; simpl in *; try discriminate; contradiction. }
        rewrite Hnone. simpl. apply Z.ltb_lt. lia. }
    rewrite Hcs. eauto. }
  apply list_find_None in Hq. exfalso.
  assert (all_done pl = true); [|congruence].
  unfold all_done. apply forallb_forall. intros t Hin. apply list_elem_of_In in Hin.
  apply list_elem_of_lookup in Hin as (j & Hj).
  pose proof (Forall_lookup_1 _ _ _ _ Hfree Hj) as Hf.
  pose proof (Forall_lookup_1 _ _ _ _ Hlk Hj) as Hk.
  pose proof (Forall_lookup_1 _ _ _ _ Hq Hj) as Hqq.
  destruct t; simpl in *; try reflexivity; contradiction.
Qed.

(** Every pool can be run to completion. *)
Lemma pool_completes (c : scan_config) (pl : pool P) :
  (poll_budget (c_timeout c) <= c_budget c)%nat ->
  1 <= c_max_workers c ->
  lock_ok pl ->
  exists sched : list nat, all_done (run_pool c sched pl) = true.
Proof.
  intros Hb Hw. remember (pool_weight pl) as n eqn:Hn. revert pl Hn.
  induction n as [n IH] using lt_wf_ind. intros pl -> Hlock.
  destruct (all_done pl) eqn:Hd; [exists []; exact Hd|].
  destruct (pool_progress c pl Hb Hw Hlock Hd) as (tid & p' & t' & Hs).
  destruct (IH (pool_weight (pool_step c tid pl))
              (pool_step_weight c tid pl p' t' Hs) (pool_step c tid pl) eq_refl)
    as (sched & Hsched).
  - apply (lock_ok_run c [tid] pl Hlock).
  - exists (tid :: sched). exact Hsched.
Qed.

End Progress.

(** ** fast_scan and main *)

Section Scan.
Context {P : platform}.

Lemma fast_scan_returned_inv (budget : nat) (sched : list nat) (ip : string)
    (start_port end_port max_threads : Z) (timeout : Q) (p p' : process P) :
  fast_scan budget sched ip start_port end_port max_threads timeout p = Returned p' ->
  exists batches : list (list Z),
    batch_ports start_port end_port (max_threads / 2) = Ok batches /\
    0 < max_threads /\
    all_done (run_pool (scan_config_of budget ip max_threads timeout) sched
                (submitted p batches)) = true /\
    p' = proc (run_pool (scan_config_of budget ip max_threads timeout) sched
                 (submitted p batches)).
Proof.
  unfold fast_scan.
  destruct (batch_ports start_port end_port (max_threads / 2)) as [batches|e];
    [|discriminate].
  destruct (Z.leb_spec max_threads 0); [discriminate|].
  destruct (all_done _) eqn:Hd; [|discriminate].
  intros [= <-]. exists batches. auto.
Qed.

Lemma step_produced_open (c : scan_config) (tid : nat) (pl : pool P) :
  Forall (fun r => r_ip r = c_ip c /\ r_status r = "open") (step_produced c tid pl).
Proof.
  unfold step_produced.
  destruct (tasks pl !! tid) as [[ports|[|port rest]|r rest|r rest|r rest|r rest| |e]|];
    try constructor.
  destruct (scan_port _ _ _ _ _) as [[[r|]|e|] st] eqn:Hrun; try constructor; [|constructor].
  apply scan_port_inv in Hrun as (s & st0 & st1 & st2 & _ & _ & Hrec & _).
  apply open_record_inv in Hrec as (Hip & _ & Hst & _). auto.
Qed.

Lemma produced_open (c : scan_config) (sched : list nat) (pl : pool P) :
  Forall (fun r => r_ip r = c_ip c /\ r_status r = "open") (produced c sched pl).
Proof.
  revert pl. induction sched as [|tid sched IH]; intros pl; [constructor|].
  simpl. apply Forall_app. split; [apply step_produced_open | apply IH].
Qed.

(** C2, at a concurrency of 1, which main's clamp lets through.  The
    batch size fast_scan derives from one thread is [1 // 2 = 0], and
    batch_ports raises ValueError on it: fast_scan fails before any port
    is probed, whatever the target and the range. *)
Theorem fast_scan_fails_with_one_thread (budget : nat) (sched : list nat)
    (ip : string) (start_port end_port : Z) (timeout : Q) (p : process P) :
  clamp_threads 1 = 1 /\
  1 / 2 = 0 /\
  batch_ports start_port end_port (clamp_threads 1 / 2) = Exc ValueError /\
  fast_scan budget sched ip start_port end_port (clamp_threads 1) timeout p
    = Raised ValueError p.
Proof. repeat split. Qed.

(** main passes fast_scan a thread count between 1 and 500. *)
Lemma clamp_threads_range (threads : Z) : 1 <= clamp_threads threads <= 500.
Proof. unfold clamp_threads. lia. Qed.

(** From two threads on, the derived batch size is at least 1. *)
Lemma batch_size_positive (threads : Z) :
  2 <= threads -> 1 <= threads / 2.
Proof. intros H. apply Z.div_le_lower_bound; lia. Qed.

(** What a scan that returns has done to [scan_results]. *)
Lemma fast_scan_new_records (budget : nat) (sched : list nat) (ip : string)
    (start_port end_port max_threads : Z) (timeout : Q) (p p' : process P) :
  fast_scan budget sched ip start_port end_port max_threads timeout p = Returned p' ->
  exists (batches : list (list Z)) (new : list ProbeResult),
    batch_ports start_port end_port (max_threads / 2) = Ok batches /\
    scan_results p' = scan_results p ++ new /\
    new ≡ₚ produced (scan_config_of budget ip max_threads timeout) sched
             (submitted p batches).
Proof.
  intros H. apply fast_scan_returned_inv in H as (batches & Hb & _ & Hd & ->).
  set (c := scan_config_of budget ip max_threads timeout) in *.
  destruct (run_pool_prefix c sched (submitted p batches)) as [new Hnew].
  simpl in Hnew. exists batches, new. split; [exact Hb|]. split; [exact Hnew|].
  pose proof (run_pool_records c sched (submitted p batches)) as Hrec.
  rewrite (done_not_in_flight _ Hd), Hnew in Hrec. simpl in Hrec.
  rewrite queued_not_in_flight, app_nil_r in Hrec. simpl in Hrec.
  by apply Permutation_app_inv_l in Hrec.
Qed.

(** C6, as the code has it.  [scan_results] is one module-level list,
    empty when the process starts and never reset.  When fast_scan
    returns, the list holds what it held when fast_scan was called, in the
    same order, followed by the records of this scan: the records
    scan_port handed out during it, each for the scanned address and with
    status open.  So a scan returns a collection of its own records alone
    only when the list was empty at its start. *)
Theorem fast_scan_accumulates (budget : nat) (sched : list nat) (ip : string)
    (start_port end_port max_threads : Z) (timeout : Q) (p p' : process P) :
  fast_scan budget sched ip start_port end_port max_threads timeout p = Returned p' ->
  exists (batches : list (list Z)) (new : list ProbeResult),
    batch_ports start_port end_port (max_threads / 2) = Ok batches /\
    scan_results p' = scan_results p ++ new /\
    new ≡ₚ produced (scan_config_of budget ip max_threads timeout) sched
             (submitted p batches) /\
    Forall (fun r => r_ip r = ip /\ r_status r = "open") new /\
    (forall w : world P, scan_results (process_start w) = []).
Proof.
  intros H. apply fast_scan_new_records in H as (batches & new & Hb & Hnew & Hperm).
  exists batches, new. repeat (split; [assumption|]). split; [|reflexivity].
  rewrite Hperm. apply (produced_open (scan_config_of budget ip max_threads timeout)).
Qed.


(** The arguments with the [--banner] flag set to [flag]. *)
Definition with_banner (flag : bool) (a : arguments) : arguments :=
  {| a_ip := a_ip a; a_ports := a_ports a; a_threads := a_threads a;
     a_timeout := a_timeout a; a_output := a_output a; a_banner := flag |}.

Lemma main_ignores_banner_flag (budget : nat) (sched : list nat) (flag : bool)
    (a : arguments) (p : process P) :
  main budget sched (with_banner flag a) p = main budget sched a p.
Proof. reflexivity. Qed.

End Scan.

(** ** The pool of one scan *)

(** The pool of a scan after the turns of [sched]. *)
Definition scan_pool {P : platform} (budget : nat) (sched : list nat) (ip : string)
    (max_threads : Z) (timeout : Q) (p : process P) (batches : list (list Z))
    : pool P :=
  run_pool (scan_config_of budget ip max_threads timeout) sched (submitted p batches).


Section Workers.
Context {P : platform}.





(** C8. In the pool of a scan started with the lock free, at every point
    of every schedule: the lock is held by a task exactly when that task
    is inside [with results_lock]; two tasks are never inside at once; a
    turn changes [scan_results] only by appending one record, and then the
    task that appends holds the lock and is the only one inside; the
    records in [scan_results] together with those in flight are those
    present at the start together with those scan_port has handed out, so
    none is lost or altered, and [scan_results] only grows at its end.
    fast_scan returns only from a pool in which every submitted batch is
    done; [scan_results] then holds, besides what it held at the start,
    exactly the records handed out, and the lock is free. *)
Theorem results_appended_under_lock (budget : nat) (sched : list nat) (ip : string)
    (start_port end_port max_threads : Z) (timeout : Q) (p : process P)
    (batches : list (list Z)) :
  results_lock p = None ->
  batch_ports start_port end_port (max_threads / 2) = Ok batches ->
  lock_ok (scan_pool budget sched ip max_threads timeout p batches) /\
  (forall (i j : nat) (ti tj : task),
      tasks (scan_pool budget sched ip max_threads timeout p batches) !! i = Some ti ->
      in_section ti = true ->
      tasks (scan_pool budget sched ip max_threads timeout p batches) !! j = Some tj ->
      in_section tj = true ->
      i = j) /\
  (forall tid : nat,
      scan_results (proc (scan_pool budget (sched ++ [tid]) ip max_threads timeout p batches))
      = scan_results (proc (scan_pool budget sched ip max_threads timeout p batches)) \/
      exists r rest,
        tasks (scan_pool budget sched ip max_threads timeout p batches) !! tid
          = Some (Appending r rest) /\
        results_lock (proc (scan_pool budget sched ip max_threads timeout p batches))
          = Some tid /\
        scan_results (proc (scan_pool budget (sched ++ [tid]) ip max_threads timeout p batches))
        = scan_results (proc (scan_pool budget sched ip max_threads timeout p batches)) ++ [r]) /\
  scan_results (proc (scan_pool budget sched ip max_threads timeout p batches))
    ++ (tasks (scan_pool budget sched ip max_threads timeout p batches) ≫= in_flight)
  ≡ₚ scan_results p
       ++ produced (scan_config_of budget ip max_threads timeout) sched (submitted p batches) /\
  scan_results p `prefix_of`
    scan_results (proc (scan_pool budget sched ip max_threads timeout p batches)) /\
  (forall p' : process P,
      fast_scan budget sched ip start_port end_port max_threads timeout p = Returned p' ->
      all_done (scan_pool budget sched ip max_threads timeout p batches) = true /\
      p' = proc (scan_pool budget sched ip max_threads timeout p batches) /\
      scan_results p' ≡ₚ
        scan_results p
          ++ produced (scan_config_of budget ip max_threads timeout) sched (submitted p batches) /\
      results_lock p' = None).
Proof.
  intros Hfree Hb. unfold scan_pool.
  set (c := scan_config_of budget ip max_threads timeout).
  set (pl := run_pool c sched (submitted p batches)).
  assert (Hlock : lock_ok pl) by (apply lock_ok_run, lock_ok_submitted, Hfree).
  assert (Hrec : scan_results (proc pl) ++ (tasks pl ≫= in_flight)
                 ≡ₚ scan_results p ++ produced c sched (submitted p batches)).
  { subst pl. rewrite run_pool_records. simpl. by rewrite queued_not_in_flight. }
  split; [exact Hlock|].
  split; [intros i j ti tj; apply lock_ok_exclusive; exact Hlock|].
  split.
  { intros tid. rewrite run_pool_app. fold pl. simpl.
    destruct (pool_step_results c tid pl) as [Hsame|(r & rest & Ht & Happ)]; [by left|].
    right. exists r, rest. split; [exact Ht|]. split; [|exact Happ].
    apply Hlock. eauto. }
  split; [exact Hrec|].
  split; [apply (run_pool_prefix c sched (submitted p batches))|].
  intros p' Hret. apply fast_scan_returned_inv in Hret as (batches' & Hb' & _ & Hd & ->).
  rewrite Hb in Hb'. injection Hb' as <-. fold c pl in Hd |- *.
  split; [exact Hd|]. split; [reflexivity|]. split.
  - rewrite (done_not_in_flight _ Hd), app_nil_r in Hrec. exact Hrec.
  - destruct (results_lock (proc pl)) as [h|] eqn:Hl; [|reflexivity]. exfalso.
    apply Hlock in Hl as (t & Ht & Hsec).
    assert (is_done t = true).
    { eapply (proj1 (forallb_forall _ _) Hd). apply list_elem_of_In.
      apply list_elem_of_lookup. eauto. }
    destruct t; discriminate.
Qed.

End Workers.

Section Failures.
Context {P : platform}.







End Failures.

Section Completion.
Context {P : platform} (clock : world P -> Q) (Htick : ticking P clock).

(** X16. A scan cannot get stuck.  With a ticking clock, a sufficient
    loop budget, a range whose ends are in order, at least two threads and
    the lock free at the start, every schedule can be continued to one on
    which every batch is done and fast_scan returns: whatever the tasks
    have done so far, no task waits for ever for a thread or for the lock. *)
Lemma fast_scan_returns (budget : nat) (sched : list nat) (ip : string)
    (start_port end_port max_threads : Z) (timeout : Q) (p : process P) :
  (poll_budget timeout <= budget)%nat ->
  start_port <= end_port -> 2 <= max_threads ->
  results_lock p = None ->
  exists (more : list nat) (p' : process P),
    fast_scan budget (sched ++ more) ip start_port end_port max_threads timeout p
      = Returned p'.
Proof.
  intros Hb Hrange Hthreads Hfree. unfold fast_scan.
  rewrite batch_ports_chunks by (auto using batch_size_positive).
  destruct (Z.leb_spec max_threads 0); [lia|].
  set (c := scan_config_of budget ip max_threads timeout).
  set (pl0 := submitted p _).
  destruct (pool_completes clock Htick c (run_pool c sched pl0)) as (more & Hmore).
  - exact Hb.
  - simpl. lia.
  - apply lock_ok_run, lock_ok_submitted, Hfree.
  - exists more. rewrite run_pool_app, Hmore. eauto.
Qed.

End Completion.

(** ** The concrete platform at work *)

Lemma demo_ticking : ticking demo dw_clock.
Proof.
  split.
  - intros c w. destruct c; try (simpl; apply Qle_refl).
    unfold sys, demo, demo_sys.
    destruct (Qltb secs 0) eqn:Hneg; [apply Qle_refl|].
    unfold snd, dw_clock at 2. rewrite Qred_correct.
    assert (~ (secs < 0)%Q) by (rewrite <- Qltb_lt; congruence). lra.
  - intros w w' t. simpl. intros [= <- <-]. split; apply Qle_refl.
  - intros d w w'. unfold sys, demo, demo_sys.
    destruct (Qltb d 0); [discriminate|].
    intros [= <-]. unfold dw_clock at 2. rewrite Qred_correct. apply Qle_refl.
Qed.

Example demo_scan_20_25 :
  exists p : process demo,
    main 20 (round_robin 3 30) (demo_args "127.0.0.1" "20-25" 4 false)
      demo_process = Returned p /\
    r_port <$> scan_results p = [22].
Proof. eexists. split; vm_compute; reflexivity. Qed.

(** main, given one thread, ends with an uncaught ValueError. *)
Example main_fails_with_one_thread :
  exists p : process demo,
    main 20 (round_robin 3 30) (demo_args "127.0.0.1" "20-25" 1 false)
      demo_process = Raised ValueError p /\
    scan_results p = [].
Proof. eexists. split; vm_compute; reflexivity. Qed.

Lemma scan_port_service_and_banner_witness :
  exists (r : ProbeResult) (st' : state demo),
    scan_port 20 "127.0.0.1" 22 0.1 demo_state = (Ret (Some r), st') /\
    r_service r = default "Unknown" (COMMON_PORTS !! 22).
Proof.
  eexists _, _. split.
  - vm_compute. reflexivity.
  - eapply (scan_port_service_and_banner (P := demo) 20 "127.0.0.1" 22 0.1 demo_state).
    vm_compute. reflexivity.
Defined.


(** Port 23 of the demo host refuses: the probe polls until the timeout
    and returns [None]. *)
Example demo_refused_port :
  exists st' : state demo,
    scan_port 20 "127.0.0.1" 23 0.1 demo_state = (Ret None, st') /\
    length (filter (fun c => is_socket_socket c = true) (st_trace st')) = 1%nat.
Proof. eexists. split; vm_compute; reflexivity. Qed.

(** C6 fails on the code: the same scan, run twice in one process.  The
    first call returns a collection of one record; the second returns a
    collection of two, the first call's record and its own. *)
Lemma fast_scan_twice_accumulates :
  exists p1 p2 : process demo,
    fast_scan 20 (replicate 7 0%nat) "127.0.0.1" 22 22 4 0.1 demo_process = Returned p1 /\
    fast_scan 20 (replicate 7 0%nat) "127.0.0.1" 22 22 4 0.1 p1 = Returned p2 /\
    length (scan_results p1) = 1%nat /\
    length (scan_results p2) = 2%nat /\
    scan_results p2 = scan_results p1 ++ scan_results p1.
Proof.
  eexists _, _. split; [vm_compute; reflexivity|].
  split; [vm_compute; reflexivity|].
  repeat apply conj; vm_compute; reflexivity.
Qed.

Lemma demo_scan_returns :
  fast_scan 20 (replicate 7 0%nat) "127.0.0.1" 22 22 4 0.1 demo_process
  = Returned demo_after_scan.
Proof. vm_compute. reflexivity. Qed.

Lemma fast_scan_accumulates_witness :
  fast_scan 20 (replicate 7 0%nat) "127.0.0.1" 22 22 4 0.1 demo_process
    = Returned demo_after_scan /\
  exists new : list ProbeResult,
    scan_results demo_after_scan = scan_results demo_process ++ new.
Proof.
  split; [exact demo_scan_returns|].
  destruct (fast_scan_accumulates (P := demo) _ _ _ _ _ _ _ _ _ demo_scan_returns)
    as (batches & new & _ & Hnew & _).
  exists new. exact Hnew.
Defined.

(** C7 fails on the code.  validate_ip catches [socket.error] only, and
    inet_pton raises another class for a text it cannot take: validate_ip
    then raises, and main ends with that exception, whatever the port
    specification, without logging a diagnostic.  On the demo platform,
    for an address that is the byte 0xFF (the lone surrogate U+DCFF once
    Python has read the command line) and the malformed port
    specification abc, main ends with UnicodeEncodeError and the log is
    empty. *)
Theorem main_raises_on_unencodable_address :
  (forall (P : platform) (ip : string) (e : exn),
      inet_pton P AF_INET ip = Exc e -> only_socket_error e = false ->
      validate_ip (P := P) ip = Exc e) /\
  (forall (P : platform) (budget : nat) (sched : list nat) (a : arguments)
          (p : process P) (e : exn),
      validate_ip (P := P) (a_ip a) = Exc e ->
      main budget sched a p = Raised e p) /\
  inet_pton demo AF_INET (String byte_FF "") = Exc UnicodeEncodeError /\
  parse_port_spec (P := demo) "abc" = Exc ValueError /\
  main 20 [] (demo_args (String byte_FF "") "abc" 4 false) demo_process
    = Raised UnicodeEncodeError demo_process /\
  p_log demo_process = [].
Proof.
  split.
  { intros P ip e H4 He. unfold validate_ip. rewrite H4, He. reflexivity. }
  split.
  { intros P budget sched a p e Hip. unfold main. rewrite Hip. reflexivity. }
  repeat apply conj; reflexivity.
Qed.

(** The three diagnostics of main, on the demo platform. *)
Example demo_invalid_inputs :
  main 20 [] (demo_args "localhost" "1-10" 4 false) demo_process
    = Returned (logging ERROR (Msg "Invalid IP address") demo_process) /\
  main 20 [] (demo_args "127.0.0.1" "80-" 4 false) demo_process
    = Returned (logging ERROR (Msg "Invalid port range") demo_process) /\
  main 20 [] (demo_args "127.0.0.1" "1-2-3" 4 false) demo_process
    = Returned (logging ERROR (Msg "Invalid port range") demo_process) /\
  main 20 [] (demo_args "127.0.0.1" "0-10" 4 false) demo_process
    = Returned (logging ERROR (Msg "Invalid port range (1-65535)") demo_process) /\
  main 20 [] (demo_args "127.0.0.1" "1-65536" 4 false) demo_process
    = Returned (logging ERROR (Msg "Invalid port range (1-65535)") demo_process) /\
  main 20 [] (demo_args "127.0.0.1" "10-5" 4 false) demo_process
    = Returned (logging ERROR (Msg "Invalid port range (1-65535)") demo_process).
Proof. repeat apply conj; vm_compute; reflexivity. Qed.

Lemma results_appended_under_lock_witness :
  results_lock demo_process = None /\
  batch_ports 20 25 (4 / 2) = Ok [[20; 21]; [22; 23]; [24; 25]] /\
  lock_ok (scan_pool 20 (round_robin 3 3) "127.0.0.1" 4 0.1 demo_process
             [[20; 21]; [22; 23]; [24; 25]]).
Proof.
  assert (Hfree : results_lock demo_process = None) by reflexivity.
  assert (Hb : batch_ports 20 25 (4 / 2) = Ok [[20; 21]; [22; 23]; [24; 25]])
    by reflexivity.
  split; [exact Hfree|]. split; [exact Hb|].
  exact (proj1 (results_appended_under_lock (P := demo) 20 (round_robin 3 3)
                  "127.0.0.1" 20 25 4 0.1 demo_process _ Hfree Hb)).
Defined.

(** A pool caught in the middle: after three rounds the second task is
    between acquiring and releasing the lock, and holds it. *)
Example demo_pool_midway :
  tasks (scan_pool 20 (round_robin 3 3) "127.0.0.1" 4 0.1 demo_process
           [[20; 21]; [22; 23]; [24; 25]]) !! 1%nat
    = Some (Appending
              {| r_ip := "127.0.0.1"; r_port := 22; r_status := "open";
                 r_service := "SSH"; r_banner := [82; 69; 65; 68; 89]%N;
                 r_timestamp := "2024-01-01T00:00:00" |} [23]) /\
  results_lock (proc (scan_pool 20 (round_robin 3 3) "127.0.0.1" 4 0.1 demo_process
                        [[20; 21]; [22; 23]; [24; 25]])) = Some 1%nat.
Proof. split; vm_compute; reflexivity. Qed.

(** C9 fails on the code.  main never reads the [--banner] flag: its
    result is the same whatever the flag's value; and a scan run with the
    flag unset still captures banners: on the demo host the record of
    port 22 carries the banner READY, read by a [recv] call. *)
Theorem banner_flag_is_ignored :
  (forall (P : platform) (budget : nat) (sched : list nat) (flag : bool)
          (a : arguments) (p : process P),
      main budget sched (with_banner flag a) p = main budget sched a p) /\
  a_banner (demo_args "127.0.0.1" "22" 4 false) = false /\
  exists (p : process demo) (r : ProbeResult),
    main 20 (replicate 7 0%nat) (demo_args "127.0.0.1" "22" 4 false) demo_process
      = Returned p /\
    scan_results p = [r] /\
    r_banner r = [82; 69; 65; 68; 89]%N /\
    sock_recv 3 1024 ∈ st_trace (p_os p).
Proof.
  split; [intros; apply main_ignores_banner_flag|]. split; [reflexivity|].
  eexists _, _. split; [vm_compute; reflexivity|].
  split; [reflexivity|]. split; [reflexivity|].
  simpl. apply list_elem_of_In. vm_compute. tauto.
Qed.



(** A scan of the IPv6 loopback: the address is accepted, six sockets
    are opened, and no port is reported. *)
Example demo_scan_ipv6 :
  exists p : process demo,
    main 20 (round_robin 3 30) (demo_args "::1" "20-25" 4 false) demo_process
      = Returned p /\
    scan_results p = [] /\
    length (filter (fun c => is_socket_socket c = true) (st_trace (p_os p))) = 6%nat.
Proof.
  eexists. split; [vm_compute; reflexivity|].
  split; vm_compute; reflexivity.
Qed.

(** ** Further properties of batch_ports *)

Lemma batch_ports_zero (start end_ : Z) :
  batch_ports start end_ 0 = Exc ValueError.
Proof. reflexivity. Qed.

Lemma batch_ports_negative (start end_ batch_size : Z) :
  batch_size < 0 -> batch_ports start end_ batch_size = Ok [].
Proof.
  intros Hneg. unfold batch_ports, py_range_step, py_range_len.
  destruct (Z.eqb_spec batch_size 0); [lia|].
  destruct (Z.ltb_spec 0 batch_size); [lia|].
  destruct (Z.ltb_spec batch_size 0); [|lia].
  pose proof (Nat2Z.is_nonneg (length (py_range start (end_ + 1)))) as Hlen.
  destruct (Z.ltb_spec (Z.of_nat (length (py_range start (end_ + 1)))) 0) as [Hlt|_];
    [exfalso; apply (Z.lt_irrefl 0); eapply Z.le_lt_trans; eassumption|].
  reflexivity.
Qed.

Lemma batch_ports_empty_range (start end_ batch_size : Z) :
  0 < batch_size -> end_ < start -> batch_ports start end_ batch_size = Ok [].
Proof.
  intros Hpos Hempty. unfold batch_ports, py_range, py_range_step, py_range_len.
  rewrite (seqZ_nil start) by lia. simpl.
  destruct (Z.eqb_spec batch_size 0); [lia|].
  destruct (Z.ltb_spec 0 batch_size); [|lia]. reflexivity.
Qed.

Lemma batch_ports_nonzero (start end_ batch_size : Z) :
  batch_size <> 0 ->
  exists batches : list (list Z), batch_ports start end_ batch_size = Ok batches.
Proof.
  intros Hnz. unfold batch_ports, py_range_step.
  destruct (Z.eqb_spec batch_size 0); [contradiction | eauto].
Qed.

(** X1. batch_ports in closed form, for all integers.  A batch size of
    zero raises ValueError, even on an empty range.  A negative batch
    size, or a range whose end is below its start, gives no batch at all.
    Otherwise there are [(end - start) // batch_size + 1] batches, and
    batch [k] holds the ports from [start + k * batch_size] up to the
    smaller of [end] and [start + (k + 1) * batch_size - 1]. *)
Theorem batch_ports_closed_form (start end_ batch_size : Z) :
  batch_ports start end_ batch_size =
    if batch_size =? 0 then Exc ValueError
    else if (batch_size <? 0) || (end_ <? start) then Ok []
    else Ok ((fun k => seqZ (start + k * batch_size)
                         (Z.min batch_size (end_ + 1 - (start + k * batch_size))))
               <$> seqZ 0 ((end_ - start) / batch_size + 1)).
Proof.
  destruct (Z.eqb_spec batch_size 0) as [->|Hnz]; [apply batch_ports_zero|].
  destruct (Z.ltb_spec batch_size 0) as [Hneg|Hpos]; [by apply batch_ports_negative|].
  destruct (Z.ltb_spec end_ start) as [Hempty|Hrange]; simpl;
    [apply batch_ports_empty_range; lia|].
  rewrite batch_ports_chunks by lia. f_equal.
  unfold seqZ at 3. rewrite <- list_fmap_compose.
  apply list_fmap_ext. intros _ k _. simpl.
  rewrite drop_seqZ, take_seqZ. f_equal; lia.
Qed.

(** ** Further properties of fast_scan *)

Section ScanEdges.
Context {P : platform}.

(** X2. fast_scan raises exactly when it is given fewer than two threads,
    and then it raises ValueError and leaves the process as it was: for 0
    and 1 the batch size [max_threads // 2] is zero and batch_ports
    raises; for a negative count batch_ports returns no batch and the
    executor refuses [max_workers <= 0].  From two threads on, for any
    range, fast_scan returns or is still waiting for the pool. *)
Theorem fast_scan_raises_below_two_threads (budget : nat) (sched : list nat)
    (ip : string) (start_port end_port max_threads : Z) (timeout : Q)
    (p : process P) :
  match fast_scan budget sched ip start_port end_port max_threads timeout p with
  | Raised e p' => max_threads <= 1 /\ e = ValueError /\ p' = p
  | Returned _ | Waiting _ => 2 <= max_threads
  end.
Proof.
  unfold fast_scan. destruct (Z_le_gt_dec max_threads 1) as [Hle|Hgt].
  - destruct (Z_le_gt_dec 0 max_threads) as [Hnn|Hneg].
    + assert (Hz : max_threads / 2 = 0) by (apply Z.div_small; lia).
      rewrite Hz, batch_ports_zero. auto.
    + assert (Hn : max_threads / 2 < 0) by (apply Z.div_lt_upper_bound; lia).
      rewrite (batch_ports_negative _ _ _ Hn).
      destruct (Z.leb_spec max_threads 0); [auto | lia].
  - assert (Hb : 1 <= max_threads / 2) by (apply batch_size_positive; lia).
    destruct (batch_ports_nonzero start_port end_port (max_threads / 2))
      as (batches & ->); [lia|].
    destruct (Z.leb_spec max_threads 0); [lia|].
    destruct (all_done _); lia.
Qed.

End ScanEdges.

(** ** Further properties of scan_port *)

(** The calls scan_port makes between opening socket [s] and closing it. *)
Definition probe_call (s : sock) (ip : string) (port : Z) (timeout : Q)
    (c : call) : Prop :=
  match c with
  | sock_settimeout s' t =>
      s' = s /\ (t = timeout \/ (t = 1%Q /\ service_of port <> "Unknown"))
  | sock_setblocking s' flag => s' = s /\ flag = false
  | sock_connect s' ip' port' => s' = s /\ ip' = ip /\ port' = port
  | sock_connect_ex s' ip' port' => s' = s /\ ip' = ip /\ port' = port
  | sock_recv s' bufsize => s' = s /\ bufsize = 1024 /\ service_of port <> "Unknown"
  | time_time | datetime_now_isoformat => True
  | time_sleep secs => secs = 0.01%Q
  | socket_socket _ _ | sock_close _ | datetime_now | json_dump_file _ _ => False
  end.

(** Any call of a probe: opening the socket, a call on it, closing it. *)
Definition any_probe_call (ip : string) (port : Z) (timeout : Q) (c : call) : Prop :=
  c = socket_socket AF_INET SOCK_STREAM \/
  exists s : sock, probe_call s ip port timeout c \/ c = sock_close s.

Lemma service_of_unknown (port : Z) :
  service_of port = "Unknown" <-> COMMON_PORTS !! port = None.
Proof.
  unfold service_of. split; [|intros ->; reflexivity].
  destruct (COMMON_PORTS !! port) as [v|] eqn:Hv; [|reflexivity].
  simpl. intros ->. exfalso. unfold COMMON_PORTS in Hv.
  apply elem_of_list_to_map_2 in Hv.
  repeat (apply elem_of_cons in Hv as [Hv|Hv]; [discriminate Hv|]).
  by apply elem_of_nil in Hv.
Qed.

Section ProbeCalls.
Context {P : platform}.

Lemma scan_body_calls (budget : nat) (ip : string) (port : Z) (timeout : Q)
    (s : sock) :
  emits (scan_body (P := P) budget ip port timeout s) (probe_call s ip port timeout).
Proof.
  unfold scan_body. apply emits_bind.
  { apply connect_phase_emits; simpl; auto. }
  intros [|]; [|apply emits_ret].
  apply emits_bind; [|intros; apply emits_ret].
  unfold open_record. apply emits_bind.
  - destruct (String.eqb (service_of port) "Unknown") eqn:Hs; [apply emits_ret|].
    apply String.eqb_neq in Hs. apply get_banner_emits; simpl; auto.
  - intros b. apply emits_bind; [by apply (emits_call datetime_now_isoformat)|].
    intros; apply emits_ret.
Qed.

Lemma scan_port_calls (budget : nat) (ip : string) (port : Z) (timeout : Q) :
  emits (scan_port (P := P) budget ip port timeout) (any_probe_call ip port timeout).
Proof.
  unfold scan_port. apply emits_try; [|intros; apply emits_ret].
  unfold with_socket. apply emits_bind; [apply emits_call; by left|].
  intros s. apply emits_finally.
  - intros st o st' Hrun. apply scan_body_calls in Hrun as (tr & Htr & Hok).
    exists tr. split; [exact Htr|].
    eapply Forall_impl; [exact Hok|]. intros c Hc. right. exists s. by left.
  - apply (emits_call (sock_close s)). right. exists s. by right.
Qed.

(** X3. A probe that returns has either failed to open a socket, made no
    other call and returned [None]; or it has opened one socket, used
    only that socket and only for the address and port it was given, and
    closed it as its last call, whatever happened in between.  No probe
    that returns leaves its socket open. *)
Theorem scan_port_closes_its_socket (budget : nat) (ip : string) (port : Z)
    (timeout : Q) (st st' : state P) (r : option ProbeResult) :
  scan_port budget ip port timeout st = (Ret r, st') ->
  (exists e : exn,
      sys_call (socket_socket AF_INET SOCK_STREAM) st = (Exc e, st') /\ r = None) \/
  (exists (s : sock) (st0 : state P) (tr : list call),
      sys_call (socket_socket AF_INET SOCK_STREAM) st = (Ok s, st0) /\
      st_trace st' = st_trace st ++ socket_socket AF_INET SOCK_STREAM :: tr ++ [sock_close s] /\
      Forall (probe_call s ip port timeout) tr).
Proof.
  unfold scan_port, try_except, with_socket. unfold bind at 1, do_call at 1.
  destruct (sys_call (socket_socket AF_INET SOCK_STREAM) st) as [[s|e] st0] eqn:H0.
  - pose proof (sys_call_trace _ _ _ _ H0) as T0. unfold finally.
    destruct (scan_body budget ip port timeout s st0) as [o1 st1] eqn:Hbody.
    apply scan_body_calls in Hbody as (tr & Htr & Hok).
    assert (Hclose : forall o2 st2, do_call (sock_close s) st1 = (o2, st2) ->
              st_trace st2 = st_trace st ++ socket_socket AF_INET SOCK_STREAM
                               :: tr ++ [sock_close s]).
    { intros o2 st2. unfold do_call.
      destruct (sys_call (sock_close s) st1) as [r2 st2'] eqn:Hc.
      apply sys_call_trace in Hc. rewrite Htr, T0 in Hc.
      destruct r2; intros [= _ <-]; rewrite Hc, <- !app_assoc; reflexivity. }
    destruct o1 as [a|e|]; [| |discriminate];
      destruct (do_call (sock_close s) st1) as [[[]|e'|] st2] eqn:Hc;
      specialize (Hclose _ _ eq_refl); simpl; intros [= <- <-];
      right; exists s, st0, tr; auto.
  - simpl. intros [= <- <-]. left. eauto.
Qed.

(** X4. During a probe, a read on the socket happens only for a port of
    the table COMMON_PORTS, and it asks for 1024 bytes; for any other
    port scan_port makes no [recv] call, whatever the outcome.  (The
    service of a port is [Unknown] exactly when the table has no entry
    for it: no entry of the table carries that name.) *)
Theorem banner_read_only_for_table_ports (budget : nat) (ip : string) (port : Z)
    (timeout : Q) (st st' : state P) (o : outcome (option ProbeResult))
    (s : sock) (bufsize : Z) :
  scan_port budget ip port timeout st = (o, st') ->
  sock_recv s bufsize ∈ drop (length (st_trace st)) (st_trace st') ->
  is_Some (COMMON_PORTS !! port) /\ bufsize = 1024.
Proof.
  intros Hrun Hin. apply scan_port_calls in Hrun as (tr & Htr & Hok).
  rewrite Htr, drop_app_length in Hin.
  rewrite Forall_forall in Hok. apply Hok in Hin.
  destruct Hin as [Hin|(s' & [Hin|Hin])]; try discriminate.
  simpl in Hin. destruct Hin as (_ & -> & Hknown). split; [|reflexivity].
  destruct (COMMON_PORTS !! port) eqn:Hl; [eauto|].
  exfalso. apply Hknown. by apply service_of_unknown.
Qed.

End ProbeCalls.

Lemma scan_port_closes_its_socket_witness :
  exists (r : option ProbeResult) (st' : state demo),
    scan_port 20 "127.0.0.1" 22 0.1 demo_state = (Ret r, st') /\
    last (st_trace st') = Some (sock_close 3).
Proof.
  eexists _, _. split; [vm_compute; reflexivity|].
  destruct (scan_port_closes_its_socket (P := demo) 20 "127.0.0.1" 22 0.1
              demo_state _ _ ltac:(vm_compute; reflexivity))
    as [(e & He & _)|(s & st0 & tr & H0 & Htr & _)].
  - vm_compute in He. discriminate He.
  - reflexivity.
Defined.

Lemma banner_read_only_for_table_ports_witness :
  exists (o : outcome (option ProbeResult)) (st' : state demo),
    scan_port 20 "127.0.0.1" 22 0.1 demo_state = (o, st') /\
    sock_recv 3 1024 ∈ drop (length (st_trace demo_state)) (st_trace st') /\
    is_Some (COMMON_PORTS !! 22).
Proof.
  eexists _, _. split; [vm_compute; reflexivity|].
  assert (Hin : sock_recv 3 1024 ∈
            drop (length (st_trace demo_state))
              (st_trace (snd (scan_port (P := demo) 20 "127.0.0.1" 22 0.1 demo_state)))).
  { apply list_elem_of_In. vm_compute. tauto. }
  split; [exact Hin|].
  exact (proj1 (banner_read_only_for_table_ports (P := demo) 20 "127.0.0.1" 22 0.1
                  demo_state _ _ 3 1024 ltac:(vm_compute; reflexivity) Hin)).
Defined.

(** ** How long and how often a probe polls *)

Definition is_connect_ex (c : call) : bool :=
  match c with sock_connect_ex _ _ _ => true | _ => false end.

(** The number of polls ([connect_ex] calls) in a trace. *)
Definition polls (tr : list call) : nat :=
  length (filter (fun c => is_connect_ex c = true) tr).

Lemma polls_app (tr1 tr2 : list call) : polls (tr1 ++ tr2) = (polls tr1 + polls tr2)%nat.
Proof. unfold polls. by rewrite filter_app, length_app. Qed.

Lemma polls_quiet (tr : list call) :
  Forall (fun c => is_connect_ex c = false) tr -> polls tr = 0%nat.
Proof.
  unfold polls. induction 1 as [|c tr Hc _ IH]; [reflexivity|].
  rewrite filter_cons_False by congruence. exact IH.
Qed.

Section PollCount.
Context {P : platform}.

(** [polls_within n m]: a run of [m] adds at most [n] polls to the trace. *)
Definition polls_within {A : Type} (n : Z) (m : M P A) : Prop :=
  forall st o st', m st = (o, st') ->
    exists tr, st_trace st' = st_trace st ++ tr /\ Z.of_nat (polls tr) <= n.

Lemma polls_within_quiet {A : Type} (m : M P A) :
  emits m (fun c => is_connect_ex c = false) -> polls_within 0 m.
Proof.
  intros Hm st o st' Hrun. apply Hm in Hrun as (tr & Htr & Hq).
  exists tr. split; [exact Htr|]. rewrite (polls_quiet tr Hq). lia.
Qed.

Lemma polls_within_bind {A B : Type} (a b : Z) (m : M P A) (k : A -> M P B) :
  0 <= b -> polls_within a m -> (forall x, polls_within b (k x)) ->
  polls_within (a + b) (bind m k).
Proof.
  intros Hb Hm Hk st o st'. unfold bind.
  destruct (m st) as [[x|e|] st1] eqn:Hrun; apply Hm in Hrun as (tr1 & Htr1 & Hn1).
  - intros Hrun2. apply Hk in Hrun2 as (tr2 & Htr2 & Hn2).
    exists (tr1 ++ tr2). split; [by rewrite Htr2, Htr1, app_assoc|].
    rewrite polls_app. lia.
  - intros [= _ <-]. exists tr1. split; [exact Htr1 | lia].
  - intros [= _ <-]. exists tr1. split; [exact Htr1 | lia].
Qed.

Lemma polls_within_try {A : Type} (a : Z) (m : M P A) (catches : exn -> bool)
    (h : exn -> M P A) :
  polls_within a m -> (forall e, polls_within 0 (h e)) ->
  polls_within a (try_except m catches h).
Proof.
  intros Hm Hh st o st'. unfold try_except.
  destruct (m st) as [[x|e|] st1] eqn:Hrun; apply Hm in Hrun as (tr1 & Htr1 & Hn1).
  - intros [= _ <-]. eauto.
  - destruct (catches e); [|intros [= _ <-]; eauto].
    intros Hrun2. apply Hh in Hrun2 as (tr2 & Htr2 & Hn2).
    exists (tr1 ++ tr2). split; [by rewrite Htr2, Htr1, app_assoc|].
    rewrite polls_app. lia.
  - intros [= _ <-]. eauto.
Qed.

Lemma polls_within_finally {A : Type} (a : Z) (m : M P A) (fin : M P unit) :
  polls_within a m -> polls_within 0 fin -> polls_within a (finally m fin).
Proof.
  intros Hm Hf st o st'. unfold finally.
  destruct (m st) as [[x|e|] st1] eqn:Hrun; apply Hm in Hrun as (tr1 & Htr1 & Hn1).
  - destruct (fin st1) as [[[]|e'|] st2] eqn:Hfin;
      apply Hf in Hfin as (tr2 & Htr2 & Hn2); intros [= _ <-];
      (exists (tr1 ++ tr2); split; [by rewrite Htr2, Htr1, app_assoc|];
       rewrite polls_app; lia).
  - destruct (fin st1) as [[[]|e'|] st2] eqn:Hfin;
      apply Hf in Hfin as (tr2 & Htr2 & Hn2); intros [= _ <-];
      (exists (tr1 ++ tr2); split; [by rewrite Htr2, Htr1, app_assoc|];
       rewrite polls_app; lia).
  - intros [= _ <-]. eauto.
Qed.

End PollCount.

Section PollBound.
Context {P : platform} (clock : world P -> Q) (Htick : ticking P clock).

Lemma poll_polls (budget : nat) (s : sock) (ip : string) (port : Z)
    (start timeout : Q) (K : Z) (st st' : state P) (o : outcome bool) :
  0 <= K ->
  (100 * (timeout - (clock (st_world st) - start)) <= inject_Z K)%Q ->
  poll budget s ip port start timeout st = (o, st') ->
  exists tr, st_trace st' = st_trace st ++ tr /\ Z.of_nat (polls tr) <= K.
Proof.
  revert K st. induction budget as [|budget IH]; intros K st HK Hb.
  { intros [= _ <-]. exists []. split; [by rewrite app_nil_r|].
    change (polls []) with 0%nat. lia. }
  simpl. unfold bind at 1, do_call at 1.
  destruct (sys_call time_time st) as [[now|e] st1] eqn:Hnow;
    pose proof (sys_call_trace _ _ _ _ Hnow) as T1;
    [|intros [= _ <-]; exists [time_time]; split; [exact T1|];
      change (polls [time_time]) with 0%nat; lia].
  assert (Hread : (clock (st_world st) <= now <= clock (st_world st1))%Q).
  { unfold sys_call in Hnow.
    destruct (sys P time_time (st_world st)) as [r w] eqn:Hs.
    injection Hnow as -> <-. simpl. eapply tick_read; eauto. }
  destruct (Qltb (now - start) timeout) eqn:Hlt;
    [|intros [= _ <-]; exists [time_time]; split; [exact T1|];
      change (polls [time_time]) with 0%nat; lia].
  apply Qltb_lt in Hlt.
  assert (HK1 : 1 <= K).
  { assert (0 < inject_Z K)%Q as Hq by lra.
    replace 0%Q with (inject_Z 0) in Hq by reflexivity.
    rewrite <- Zlt_Qlt in Hq. lia. }
  unfold bind at 1.
  assert (Honce : exists ready st2,
             poll_once s ip port st1 = (Ret ready, st2) /\
             st_trace st2 = st_trace st1 ++ [sock_connect_ex s ip port] /\
             (clock (st_world st1) <= clock (st_world st2))%Q).
  { unfold poll_once, try_except, bind, do_call.
    destruct (sys_call (sock_connect_ex s ip port) st1) as [[rc|e] st2] eqn:Hex;
      pose proof (sys_call_trace _ _ _ _ Hex);
      apply (sys_call_clock clock Htick) in Hex; simpl; eauto. }
  destruct Honce as (ready & st2 & -> & T2 & H12).
  destruct ready.
  { intros [= _ <-]. exists [time_time; sock_connect_ex s ip port].
    split; [rewrite T2, T1, <- app_assoc; reflexivity|].
    change (polls [time_time; sock_connect_ex s ip port]) with 1%nat. lia. }
  unfold bind at 1, do_call at 1.
  destruct (sys_call (time_sleep 0.01) st2) as [[[]|e] st3] eqn:Hsleep;
    pose proof (sys_call_trace _ _ _ _ Hsleep) as T3.
  - assert (H23 : (clock (st_world st2) + 0.01 <= clock (st_world st3))%Q).
    { unfold sys_call in Hsleep.
      destruct (sys P (time_sleep 0.01) (st_world st2)) as [r w] eqn:Hs.
      injection Hsleep as -> <-. simpl. eapply tick_sleep; eauto. }
    intros Hrest. apply (IH (K - 1)) in Hrest as (tr & Htr & Hn); [|lia|].
    + exists ([time_time; sock_connect_ex s ip port; time_sleep 0.01] ++ tr).
      split; [rewrite Htr, T3, T2, T1, <- !app_assoc; reflexivity|].
      rewrite polls_app. change (polls [time_time; sock_connect_ex s ip port; time_sleep 0.01])
        with 1%nat. lia.
    + replace (inject_Z (K - 1)) with (inject_Z K + inject_Z (-1))%Q
        by (rewrite <- inject_Z_plus; f_equal).
      change (inject_Z (-1)) with (-1)%Q. lra.
  - intros [= _ <-]. exists [time_time; sock_connect_ex s ip port; time_sleep 0.01].
    split; [rewrite T3, T2, T1, <- !app_assoc; reflexivity|].
    change (polls [time_time; sock_connect_ex s ip port; time_sleep 0.01]) with 1%nat.
    lia.
Qed.

End PollBound.

(** The most polls a probe with this timeout can make: one for every
    hundredth of a second of the timeout, rounded up. *)
Definition max_polls (timeout : Q) : Z := Z.max 0 (Qceiling (100 * timeout)).

Section ProbeBound.
Context {P : platform} (clock : world P -> Q) (Htick : ticking P clock).

Lemma connect_phase_polls (budget : nat) (ip : string) (port : Z) (timeout : Q)
    (s : sock) :
  polls_within (max_polls timeout) (connect_phase (P := P) budget ip port timeout s).
Proof.
  intros st o st'. unfold connect_phase.
  assert (Hmax : 0 <= max_polls timeout) by (unfold max_polls; lia).
  unfold bind at 1, do_call at 1.
  destruct (sys_call (sock_settimeout s timeout) st) as [[[]|e] sta] eqn:Ha;
    pose proof (sys_call_trace _ _ _ _ Ha) as Ta;
    [|intros [= _ <-]; eexists; split; [exact Ta|];
      change (polls [sock_settimeout s timeout]) with 0%nat; lia].
  unfold bind at 1, do_call at 1.
  destruct (sys_call (sock_setblocking s false) sta) as [[[]|e] stb] eqn:Hb;
    pose proof (sys_call_trace _ _ _ _ Hb) as Tb;
    [|intros [= _ <-];
      exists [sock_settimeout s timeout; sock_setblocking s false];
      split; [rewrite Tb, Ta, <- app_assoc; reflexivity|];
      change (polls [sock_settimeout s timeout; sock_setblocking s false]) with 0%nat; lia].
  unfold bind at 1, do_call at 1.
  destruct (sys_call time_time stb) as [[start|e] stc] eqn:Hc;
    pose proof (sys_call_trace _ _ _ _ Hc) as Tc;
    [|intros [= _ <-];
      exists [sock_settimeout s timeout; sock_setblocking s false; time_time];
      split; [rewrite Tc, Tb, Ta, <- !app_assoc; reflexivity|];
      change (polls [sock_settimeout s timeout; sock_setblocking s false; time_time])
        with 0%nat; lia].
  assert (Hread : (start <= clock (st_world stc))%Q).
  { unfold sys_call in Hc.
    destruct (sys P time_time (st_world stb)) as [r w] eqn:Hs.
    injection Hc as -> <-. simpl. eapply tick_read; eauto. }
  set (pre := [sock_settimeout s timeout; sock_setblocking s false; time_time;
               sock_connect s ip port]).
  assert (Hpre : polls pre = 0%nat) by reflexivity.
  assert (Hfc : exists o1 std,
             first_connect s ip port stc = (o1, std) /\ o1 <> Spin /\
             st_trace std = st_trace st ++ pre /\
             (clock (st_world stc) <= clock (st_world std))%Q).
  { unfold first_connect, try_except, do_call.
    destruct (sys_call (sock_connect s ip port) stc) as [[[]|e] std] eqn:Hd;
      pose proof (sys_call_trace _ _ _ _ Hd) as Td;
      apply (sys_call_clock clock Htick) in Hd;
      rewrite Tc, Tb, Ta, <- !app_assoc in Td; simpl in Td;
      [|destruct (only_BlockingIOError e)];
      eexists _, _; (split; [reflexivity|]); (split; [discriminate|]); split; eauto. }
  destruct Hfc as (o1 & std & Hrun & Hns & Td & Hcd).
  unfold bind at 1. rewrite Hrun.
  destruct o1 as [[]|e|]; [| |contradiction].
  - intros Hpoll.
    apply (poll_polls clock Htick _ _ _ _ _ _ (max_polls timeout)) in Hpoll
      as (tr & Htr & Hn); [|exact Hmax|].
    + exists (pre ++ tr). split; [rewrite Htr, Td, <- app_assoc; reflexivity|].
      rewrite polls_app, Hpre. lia.
    + apply Qle_trans with (100 * timeout)%Q; [lra|].
      apply Qle_trans with (inject_Z (Qceiling (100 * timeout))); [apply Qle_ceiling|].
      rewrite <- Zle_Qle. unfold max_polls. lia.
  - intros [= _ <-]. exists pre. split; [exact Td | rewrite Hpre; lia].
Qed.

(** X5. With a ticking clock a probe polls at most once for every
    hundredth of a second of its timeout (rounded up), whatever the
    operating system answers, whatever the loop budget, and whether the
    probe returns a record, returns [None] or is still polling: at most
    30 polls at the default timeout of 0.3 s, at most 500 at the largest
    timeout main allows. *)
Theorem scan_port_polls_bounded (budget : nat) (ip : string) (port : Z)
    (timeout : Q) (st st' : state P) (o : outcome (option ProbeResult)) :
  scan_port budget ip port timeout st = (o, st') ->
  Z.of_nat (polls (drop (length (st_trace st)) (st_trace st'))) <= max_polls timeout /\
  max_polls 0.3 = 30 /\ max_polls 5 = 500.
Proof.
  intros Hrun. split; [|split; reflexivity].
  assert (Hmax : 0 <= max_polls timeout) by (unfold max_polls; lia).
  assert (Hw : polls_within (0 + (max_polls timeout + 0))
                 (scan_port (P := P) budget ip port timeout)).
  { unfold scan_port. replace (0 + (max_polls timeout + 0)) with
      (0 + (max_polls timeout + 0) + 0) by lia.
    apply polls_within_try;
      [|intros; apply polls_within_quiet, emits_ret].
    rewrite Z.add_0_r.
    unfold with_socket. apply polls_within_bind; [lia| |].
    { apply polls_within_quiet. by apply emits_call. }
    intros s. apply polls_within_finally;
      [|apply polls_within_quiet; by apply (emits_call (sock_close s))].
    unfold scan_body. apply polls_within_bind; [lia|apply connect_phase_polls|].
    intros [|]; apply polls_within_quiet; [|apply emits_ret].
    apply emits_bind; [|intros; apply emits_ret].
    unfold open_record. apply emits_bind.
    - destruct (String.eqb _ _); [apply emits_ret | by apply get_banner_emits].
    - intros b. apply emits_bind; [by apply (emits_call datetime_now_isoformat)|].
      intros; apply emits_ret. }
  apply Hw in Hrun as (tr & Htr & Hn).
  rewrite Htr, drop_app_length. lia.
Qed.

End ProbeBound.

Section Deadline.
Context {P : platform}.

(** X6. The polling loop gives up only on the clock: when it ends with
    [ready] false, its last call was a reading of the clock that showed
    the timeout used up.  A poll that reports a refusal or fails does not
    end the loop. *)
Theorem poll_gives_up_at_deadline (budget : nat) (s : sock) (ip : string)
    (port : Z) (start timeout : Q) (st st' : state P) :
  poll budget s ip port start timeout st = (Ret false, st') ->
  exists (st1 : state P) (now : Q),
    sys_call time_time st1 = (Ok now, st') /\ (timeout <= now - start)%Q.
Proof.
  revert st. induction budget as [|budget IH]; intros st; [discriminate|].
  simpl. intros H. apply bind_ret_inv in H as (now & st1 & Hnow & H).
  apply (do_call_ret_inv time_time) in Hnow.
  destruct (Qltb (now - start) timeout) eqn:Hlt.
  - apply bind_ret_inv in H as (ready & st2 & _ & H).
    destruct ready; [discriminate|].
    apply bind_ret_inv in H as (u & st3 & _ & H). eauto.
  - injection H as <-. exists st, now. split; [exact Hnow|].
    apply Qnot_lt_le. rewrite <- Qltb_lt. congruence.
Qed.

End Deadline.

Lemma scan_port_polls_bounded_witness :
  ticking demo dw_clock /\
  exists (o : outcome (option ProbeResult)) (st' : state demo),
    scan_port 20 "127.0.0.1" 23 0.1 demo_state = (o, st') /\
    Z.of_nat (polls (drop (length (st_trace demo_state)) (st_trace st'))) <= max_polls 0.1.
Proof.
  split; [exact demo_ticking|].
  eexists _, _. split; [vm_compute; reflexivity|].
  exact (proj1 (scan_port_polls_bounded (P := demo) dw_clock demo_ticking 20
                  "127.0.0.1" 23 0.1 demo_state _ _ ltac:(vm_compute; reflexivity))).
Defined.

(** On the demo host port 23 refuses at once, and the probe still makes
    all ten polls its timeout of 0.1 s allows. *)
Example demo_refused_port_polls :
  polls (st_trace (snd (scan_port (P := demo) 20 "127.0.0.1" 23 0.1 demo_state)))
  = 10%nat.
Proof. vm_compute. reflexivity. Qed.

Lemma poll_gives_up_at_deadline_witness :
  exists st' : state demo,
    poll 20 3 "127.0.0.1" 23 0 0.1 demo_state = (Ret false, st') /\
    exists (st1 : state demo) (now : Q),
      sys_call time_time st1 = (Ok now, st') /\ (0.1 <= now - 0)%Q.
Proof.
  eexists. split; [vm_compute; reflexivity|].
  exact (poll_gives_up_at_deadline (P := demo) 20 3 "127.0.0.1" 23 0 0.1 demo_state _
           ltac:(vm_compute; reflexivity)).
Defined.

(** ** What a scan logs *)

(** The message port_scan_worker logs for a record [r] of address [ip]. *)
Definition open_message (ip : string) (r : ProbeResult) : level * message :=
  (INFO, MsgOpen ip (r_port r) (r_service r) (r_banner r)).

(** The record a task has obtained and not yet logged. *)
Definition unlogged (t : task) : list ProbeResult :=
  match t with
  | Locking r _ | Appending r _ | Unlocking r _ | Logging r _ => [r]
  | _ => []
  end.

Section Logs.
Context {P : platform}.

Lemma pool_step_log (c : scan_config) (tid : nat) (pl : pool P) :
  p_log (proc (pool_step c tid pl))
    ++ (open_message (c_ip c) <$> (tasks (pool_step c tid pl) ≫= unlogged))
  ≡ₚ p_log (proc pl) ++ (open_message (c_ip c) <$> (tasks pl ≫= unlogged))
       ++ (open_message (c_ip c) <$> step_produced c tid pl).
Proof.
  unfold pool_step, step_produced.
  destruct (task_step c tid pl) as [[p' t']|] eqn:Hs.
  - apply task_step_moves in Hs as (t & Ht & Hm). rewrite Ht. simpl.
    pose proof (bind_insert_perm unlogged (tasks pl) tid t t' Ht) as Hperm.
    apply (fmap_Permutation (open_message (c_ip c))) in Hperm.
    rewrite !fmap_app in Hperm.
    destruct Hm as [ports Hcs| |port rest r st Hrun|port rest st Hrun|r rest Hl|r rest|r rest|r rest];
      simpl in *; rewrite ?Hrun, ?app_nil_r in *; simpl.
    + by rewrite Hperm.
    + by rewrite Hperm.
    + by rewrite Hperm.
    + by rewrite Hperm.
    + apply Permutation_app_inv_r in Hperm. by rewrite Hperm.
    + apply Permutation_app_inv_r in Hperm. by rewrite Hperm.
    + apply Permutation_app_inv_r in Hperm. by rewrite Hperm.
    + rewrite <- Hperm. solve_Permutation.
  - unfold task_step in Hs.
    destruct (tasks pl !! tid) as [[ports|[|port rest]|r rest|r rest|r rest|r rest| |e]|];
      rewrite ?app_nil_r; try reflexivity.
    destruct (scan_port _ _ _ _ _) as [[[r|]|e|] st]; try discriminate.
    by rewrite app_nil_r.
Qed.

Lemma run_pool_log (c : scan_config) (sched : list nat) (pl : pool P) :
  p_log (proc (run_pool c sched pl))
    ++ (open_message (c_ip c) <$> (tasks (run_pool c sched pl) ≫= unlogged))
  ≡ₚ p_log (proc pl) ++ (open_message (c_ip c) <$> (tasks pl ≫= unlogged))
       ++ (open_message (c_ip c) <$> produced c sched pl).
Proof.
  revert pl. induction sched as [|tid sched IH]; intros pl.
  - simpl. by rewrite app_nil_r.
  - rewrite run_pool_cons, IH. simpl.
    rewrite (app_assoc (p_log _)), pool_step_log.
    rewrite fmap_app, <- !app_assoc. reflexivity.
Qed.

Lemma run_pool_log_prefix (c : scan_config) (sched : list nat) (pl : pool P) :
  p_log (proc pl) `prefix_of` p_log (proc (run_pool c sched pl)).
Proof.
  revert pl. induction sched as [|tid sched IH]; intros pl; [reflexivity|].
  rewrite run_pool_cons. etransitivity; [|apply IH].
  unfold pool_step. destruct (task_step c tid pl) as [[p' t']|] eqn:Hs; [|reflexivity].
  apply task_step_moves in Hs as (t & Ht & Hm). simpl.
  destruct Hm; simpl; try reflexivity. by apply prefix_app_r.
Qed.

Lemma done_not_unlogged (ts : list task) :
  forallb is_done ts = true -> ts ≫= unlogged = [].
Proof.
  induction ts as [|t ts IH]; [reflexivity|].
  intros H. simpl in H. apply andb_true_iff in H as [Ht Hts].
  rewrite bind_cons, IH by exact Hts.
  destruct t; try discriminate; reflexivity.
Qed.

Lemma queued_not_unlogged (batches : list (list Z)) :
  (Queued <$> batches) ≫= unlogged = [].
Proof.
  induction batches as [|b bs IH]; [reflexivity|].
  rewrite fmap_cons, bind_cons, IH. reflexivity.
Qed.

(** X7. When fast_scan returns, the log has grown by exactly one entry
    for each record the scan appended to [scan_results]: an INFO message
    with the scanned address and the record's port, service and banner.
    Nothing else is logged during the scan, no record goes unlogged, and
    none is logged twice (the order of the two lists may differ). *)
Theorem fast_scan_logs_each_record (budget : nat) (sched : list nat) (ip : string)
    (start_port end_port max_threads : Z) (timeout : Q) (p p' : process P) :
  fast_scan budget sched ip start_port end_port max_threads timeout p = Returned p' ->
  exists (new_results : list ProbeResult) (new_log : list (level * message)),
    scan_results p' = scan_results p ++ new_results /\
    p_log p' = p_log p ++ new_log /\
    new_log ≡ₚ open_message ip <$> new_results.
Proof.
  intros H. pose proof H as H'.
  apply fast_scan_new_records in H' as (batches' & new & Hb' & Hnew & Hperm).
  apply fast_scan_returned_inv in H as (batches & Hb & _ & Hd & ->).
  rewrite Hb in Hb'. injection Hb' as <-.
  set (c := scan_config_of budget ip max_threads timeout) in *.
  destruct (run_pool_log_prefix c sched (submitted p batches)) as [new_log Hlog].
  simpl in Hlog. exists new, new_log. split; [exact Hnew|]. split; [exact Hlog|].
  pose proof (run_pool_log c sched (submitted p batches)) as Hinv.
  rewrite (done_not_unlogged _ Hd), Hlog in Hinv. simpl in Hinv.
  rewrite queued_not_unlogged, app_nil_r in Hinv. simpl in Hinv.
  apply Permutation_app_inv_l in Hinv. rewrite Hinv, Hperm. reflexivity.
Qed.

End Logs.

Lemma fast_scan_logs_each_record_witness :
  fast_scan 20 (replicate 7 0%nat) "127.0.0.1" 22 22 4 0.1 demo_process
    = Returned demo_after_scan /\
  exists (new_results : list ProbeResult) (new_log : list (level * message)),
    scan_results demo_after_scan = scan_results demo_process ++ new_results /\
    p_log demo_after_scan = p_log demo_process ++ new_log /\
    new_log ≡ₚ open_message "127.0.0.1" <$> new_results.
Proof.
  split; [exact demo_scan_returns|].
  exact (fast_scan_logs_each_record (P := demo) _ _ _ _ _ _ _ _ _ demo_scan_returns).
Defined.

(** ** The calls of a whole scan *)


Section PoolCalls.
Context {P : platform}.

(** The calls a pool makes are the calls of its probes. *)
Lemma run_pool_calls (c : scan_config) (ok : call -> Prop) :
  (forall port, emits (scan_port (P := P) (c_budget c) (c_ip c) port (c_timeout c)) ok) ->
  forall (sched : list nat) (pl : pool P),
    exists tr : list call,
      st_trace (p_os (proc (run_pool c sched pl))) = st_trace (p_os (proc pl)) ++ tr /\
      Forall ok tr.
Proof.
  intros Hok sched. induction sched as [|tid sched IH]; intros pl.
  { exists []. split; [by rewrite app_nil_r | constructor]. }
  rewrite run_pool_cons.
  destruct (IH (pool_step c tid pl)) as (tr2 & Htr2 & Hok2).
  assert (Hstep : exists tr1,
             st_trace (p_os (proc (pool_step c tid pl)))
             = st_trace (p_os (proc pl)) ++ tr1 /\ Forall ok tr1).
  { unfold pool_step. destruct (task_step c tid pl) as [[p' t']|] eqn:Hs;
      [|exists []; split; [by rewrite app_nil_r | constructor]].
    apply task_step_moves in Hs as (t & Ht & Hm). simpl.
    destruct Hm as [ports Hcs| |port rest r st Hrun|port rest st Hrun|r rest Hl|r rest|r rest|r rest];
      simpl; try (exists []; split; [by rewrite app_nil_r | constructor]);
      apply Hok in Hrun; exact Hrun. }
  destruct Hstep as (tr1 & Htr1 & Hok1).
  exists (tr1 ++ tr2). split; [by rewrite Htr2, Htr1, app_assoc | by apply Forall_app].
Qed.

Lemma run_pool_probe_calls (c : scan_config) (sched : list nat) (pl : pool P) :
  exists tr : list call,
    st_trace (p_os (proc (run_pool c sched pl))) = st_trace (p_os (proc pl)) ++ tr /\
    Forall (fun c' => exists port, any_probe_call (c_ip c) port (c_timeout c) c') tr.
Proof.
  apply run_pool_calls. intros port st o st' Hrun.
  apply scan_port_calls in Hrun as (tr & Htr & Hok).
  exists tr. split; [exact Htr|]. eapply Forall_impl; [exact Hok|]. eauto.
Qed.



End PoolCalls.




(** ** Every port once *)

Lemma batch_ports_concat (start end_ batch_size : Z) (batches : list (list Z)) :
  1 <= batch_size ->
  batch_ports start end_ batch_size = Ok batches ->
  concat batches = seqZ start (end_ - start + 1).
Proof.
  intros Hbs Hb. destruct (Z_lt_le_dec end_ start) as [Hempty|Hrange].
  - rewrite batch_ports_empty_range in Hb by lia. injection Hb as <-.
    rewrite seqZ_nil by lia. reflexivity.
  - rewrite batch_ports_chunks in Hb by assumption.
    injection Hb as <-. rewrite concat_chunks. apply take_ge.
    rewrite length_seqZ.
    assert (end_ - start < batch_size * ((end_ - start) / batch_size + 1)).
    { pose proof (Z.mul_succ_div_gt (end_ - start) batch_size). lia. }
    assert (0 <= (end_ - start) / batch_size) by (apply Z.div_pos; lia).
    nia.
Qed.

Section Coverage.
Context {P : platform}.

Lemma done_not_remaining (ts : list task) :
  forallb is_done ts = true -> ts ≫= remaining = [].
Proof.
  induction ts as [|t ts IH]; [reflexivity|].
  intros H. simpl in H. apply andb_true_iff in H as [Ht Hts].
  rewrite bind_cons, IH by exact Hts.
  destruct t; try discriminate; reflexivity.
Qed.

Lemma queued_remaining (batches : list (list Z)) :
  (Queued <$> batches) ≫= remaining = concat batches.
Proof.
  induction batches as [|b bs IH]; [reflexivity|].
  rewrite fmap_cons, bind_cons, IH. reflexivity.
Qed.

(** Each probe opens one socket and takes one port off the ports still to
    scan; no other move does either. *)
Lemma pool_step_sockets (c : scan_config) (tid : nat) (pl : pool P) :
  (sockets_opened (st_trace (p_os (proc (pool_step c tid pl))))
     + length (tasks (pool_step c tid pl) ≫= remaining)
   = sockets_opened (st_trace (p_os (proc pl))) + length (tasks pl ≫= remaining))%nat.
Proof.
  unfold pool_step. destruct (task_step c tid pl) as [[p' t']|] eqn:Hs; [|reflexivity].
  apply task_step_moves in Hs as (t & Ht & Hm). simpl.
  pose proof (bind_insert_perm remaining (tasks pl) tid t t' Ht) as Hperm.
  apply Permutation_length in Hperm. rewrite !length_app in Hperm.
  assert (Hprobe : forall port o st,
             scan_port (c_budget c) (c_ip c) port (c_timeout c) (p_os (proc pl)) = (o, st) ->
             sockets_opened (st_trace st)
             = S (sockets_opened (st_trace (p_os (proc pl))))).
  { intros port o st Hrun. apply scan_port_trace in Hrun as (tr & -> & Hq).
    rewrite sockets_opened_app.
    change (socket_socket AF_INET SOCK_STREAM :: tr)
      with ([socket_socket AF_INET SOCK_STREAM] ++ tr).
    rewrite sockets_opened_app, (sockets_opened_quiet tr Hq).
    change (sockets_opened [socket_socket AF_INET SOCK_STREAM]) with 1%nat. lia. }
  destruct Hm as [ports Hcs| |port rest r st Hrun|port rest st Hrun|r rest Hl|r rest|r rest|r rest];
    simpl in *; rewrite ?(Hprobe _ _ _ Hrun); lia.
Qed.

Lemma run_pool_sockets (c : scan_config) (sched : list nat) (pl : pool P) :
  (sockets_opened (st_trace (p_os (proc (run_pool c sched pl))))
     + length (tasks (run_pool c sched pl) ≫= remaining)
   = sockets_opened (st_trace (p_os (proc pl))) + length (tasks pl ≫= remaining))%nat.
Proof.
  revert pl. induction sched as [|tid sched IH]; intros pl; [reflexivity|].
  rewrite run_pool_cons, IH. apply pool_step_sockets.
Qed.

(** X9. A scan that returns has opened exactly one socket for every port
    of the range: [end - start + 1] sockets, and none when the range is
    empty, for any schedule and whatever the probes found. *)
Theorem fast_scan_opens_one_socket_per_port (budget : nat) (sched : list nat)
    (ip : string) (start_port end_port max_threads : Z) (timeout : Q)
    (p p' : process P) :
  fast_scan budget sched ip start_port end_port max_threads timeout p = Returned p' ->
  exists tr : list call,
    st_trace (p_os p') = st_trace (p_os p) ++ tr /\
    Z.of_nat (sockets_opened tr) = Z.max 0 (end_port - start_port + 1).
Proof.
  intros H. apply fast_scan_returned_inv in H as (batches & Hb & Hpos & Hd & ->).
  assert (Hbs : 1 <= max_threads / 2).
  { apply batch_size_positive. destruct (decide (max_threads = 1)) as [->|]; [|lia].
    change (1 / 2) with 0 in Hb. rewrite batch_ports_zero in Hb. discriminate. }
  set (c := scan_config_of budget ip max_threads timeout) in *.
  destruct (run_pool_probe_calls c sched (submitted p batches)) as (tr & Htr & _).
  exists tr. split; [exact Htr|].
  pose proof (run_pool_sockets c sched (submitted p batches)) as Hinv.
  rewrite (done_not_remaining _ Hd), Htr, sockets_opened_app in Hinv. simpl in Hinv.
  rewrite queued_remaining, (batch_ports_concat _ _ _ _ Hbs Hb), length_seqZ in Hinv.
  lia.
Qed.

Lemma submseteq_exchange (pr pr' fl fl' rm rm' ft ft' rt rt' : list Z) :
  fl' ++ ft ≡ₚ fl ++ ft' ->
  rm' ++ rt ≡ₚ rm ++ rt' ->
  pr' ++ ft' ++ rt' ⊆+ pr ++ ft ++ rt ->
  (pr' ++ fl') ++ rm' ⊆+ (pr ++ fl) ++ rm.
Proof.
  intros Hfl Hrm Hsub. apply submseteq_app_inv_r with (k := ft ++ rt).
  transitivity ((pr' ++ ft' ++ rt') ++ fl ++ rm).
  - apply Permutation_submseteq.
    transitivity (pr' ++ (fl' ++ ft) ++ (rm' ++ rt)); [solve_Permutation|].
    rewrite Hfl, Hrm. solve_Permutation.
  - transitivity ((pr ++ ft ++ rt) ++ fl ++ rm).
    + by apply submseteq_app.
    + apply Permutation_submseteq. solve_Permutation.
Qed.

(** The ports of the records and the ports still to scan, after a turn,
    are among those before it, each at most as often. *)
Lemma pool_step_ports (c : scan_config) (tid : nat) (pl : pool P) :
  (r_port <$> (scan_results (proc (pool_step c tid pl))
                 ++ (tasks (pool_step c tid pl) ≫= in_flight)))
    ++ (tasks (pool_step c tid pl) ≫= remaining)
  ⊆+ (r_port <$> (scan_results (proc pl) ++ (tasks pl ≫= in_flight)))
       ++ (tasks pl ≫= remaining).
Proof.
  unfold pool_step. destruct (task_step c tid pl) as [[p' t']|] eqn:Hs; [|reflexivity].
  apply task_step_moves in Hs as (t & Ht & Hm). simpl.
  pose proof (bind_insert_perm remaining (tasks pl) tid t t' Ht) as Hrem.
  pose proof (bind_insert_perm in_flight (tasks pl) tid t t' Ht) as Hfl.
  apply (fmap_Permutation r_port) in Hfl. rewrite !fmap_app in Hfl.
  rewrite !fmap_app.
  eapply submseteq_exchange; [exact Hfl | exact Hrem |].
  destruct Hm as [ports Hcs| |port rest r st Hrun|port rest st Hrun|r rest Hl|r rest|r rest|r rest];
    simpl; rewrite ?fmap_app; simpl; try reflexivity.
  - apply scan_port_inv in Hrun as (s & st0 & st1 & st2 & _ & _ & Hrec & _).
    apply open_record_inv in Hrec as (_ & -> & _). reflexivity.
  - apply submseteq_app; [reflexivity|]. by apply submseteq_cons.
  - apply Permutation_submseteq. solve_Permutation.
Qed.

Lemma run_pool_ports (c : scan_config) (sched : list nat) (pl : pool P) :
  (r_port <$> (scan_results (proc (run_pool c sched pl))
                 ++ (tasks (run_pool c sched pl) ≫= in_flight)))
    ++ (tasks (run_pool c sched pl) ≫= remaining)
  ⊆+ (r_port <$> (scan_results (proc pl) ++ (tasks pl ≫= in_flight)))
       ++ (tasks pl ≫= remaining).
Proof.
  revert pl. induction sched as [|tid sched IH]; intros pl; [reflexivity|].
  rewrite run_pool_cons. etransitivity; [apply IH | apply pool_step_ports].
Qed.

(** X10. A scan that starts with an empty collection and returns has
    recorded each port at most once, and only ports of the range it was
    given: the collection holds at most one record for a port. *)
Theorem fast_scan_one_record_per_port (budget : nat) (sched : list nat)
    (ip : string) (start_port end_port max_threads : Z) (timeout : Q)
    (p p' : process P) :
  scan_results p = [] ->
  fast_scan budget sched ip start_port end_port max_threads timeout p = Returned p' ->
  NoDup (r_port <$> scan_results p') /\
  Forall (fun r => start_port <= r_port r <= end_port) (scan_results p').
Proof.
  intros Hempty H. apply fast_scan_returned_inv in H as (batches & Hb & Hpos & Hd & ->).
  assert (Hbs : 1 <= max_threads / 2).
  { apply batch_size_positive. destruct (decide (max_threads = 1)) as [->|]; [|lia].
    change (1 / 2) with 0 in Hb. rewrite batch_ports_zero in Hb. discriminate. }
  set (c := scan_config_of budget ip max_threads timeout) in *.
  pose proof (run_pool_ports c sched (submitted p batches)) as Hsub.
  rewrite (done_not_remaining _ Hd), (done_not_in_flight _ Hd), !app_nil_r in Hsub.
  simpl in Hsub.
  rewrite Hempty, queued_not_in_flight, queued_remaining in Hsub. simpl in Hsub.
  rewrite (batch_ports_concat _ _ _ _ Hbs Hb) in Hsub.
  split.
  - apply submseteq_sublist_r in Hsub as (l2 & Hperm & Hsl).
    rewrite Hperm. eapply sublist_NoDup; [apply NoDup_seqZ | exact Hsl].
  - apply Forall_forall. intros r Hr.
    assert (Hin : r_port r ∈ seqZ start_port (end_port - start_port + 1)).
    { eapply elem_of_submseteq; [|exact Hsub]. by apply list_elem_of_fmap_2. }
    apply elem_of_seqZ in Hin. lia.
Qed.

End Coverage.

Lemma fast_scan_opens_one_socket_per_port_witness :
  fast_scan 20 (replicate 7 0%nat) "127.0.0.1" 22 22 4 0.1 demo_process
    = Returned demo_after_scan /\
  exists tr : list call,
    st_trace (p_os demo_after_scan) = st_trace (p_os demo_process) ++ tr /\
    Z.of_nat (sockets_opened tr) = Z.max 0 (22 - 22 + 1).
Proof.
  split; [exact demo_scan_returns|].
  exact (fast_scan_opens_one_socket_per_port (P := demo) _ _ _ _ _ _ _ _ _
           demo_scan_returns).
Defined.

Lemma fast_scan_one_record_per_port_witness :
  scan_results demo_process = [] /\
  fast_scan 20 (replicate 7 0%nat) "127.0.0.1" 22 22 4 0.1 demo_process
    = Returned demo_after_scan /\
  NoDup (r_port <$> scan_results demo_after_scan).
Proof.
  split; [reflexivity|]. split; [exact demo_scan_returns|].
  exact (proj1 (fast_scan_one_record_per_port (P := demo) 20 (replicate 7 0%nat)
                  "127.0.0.1" 22 22 4 0.1 demo_process demo_after_scan
                  eq_refl demo_scan_returns)).
Defined.

(** ** The bound of the pool *)

(** The number of tasks that occupy a pool thread. *)
Definition active_count (ts : list task) : nat :=
  length (filter (fun t => is_active t = true) ts).

Lemma active_count_insert (ts : list task) (i : nat) (t t' : task) :
  ts !! i = Some t ->
  (active_count (<[i := t']> ts) + (if is_active t then 1 else 0)
   = active_count ts + (if is_active t' then 1 else 0))%nat.
Proof.
  intros Hi. unfold active_count. rewrite <- (take_drop_middle ts i t Hi) at 2.
  rewrite insert_take_drop by (eapply lookup_lt_Some; eauto).
  rewrite !filter_app, !filter_cons, !length_app.
  destruct (is_active t) eqn:Ht, (is_active t') eqn:Ht';
    repeat case_decide; try congruence; simpl; lia.
Qed.

Section Bound.
Context {P : platform}.

(** No more than [max_workers] tasks are active. *)
Definition within_bound (max_workers : Z) (pl : pool P) : Prop :=
  Z.of_nat (active_count (tasks pl)) <= Z.max 0 max_workers.

(** Tasks start in the order of submission: behind a queued task every
    task is queued. *)
Definition in_order (pl : pool P) : Prop :=
  forall (i j : nat) (ti tj : task),
    (i < j)%nat -> tasks pl !! i = Some ti -> tasks pl !! j = Some tj ->
    is_queued ti = true -> is_queued tj = true.

Lemma within_bound_step (c : scan_config) (pl : pool P) (tid : nat) (t : task)
    (p' : process P) (t' : task) :
  within_bound (c_max_workers c) pl ->
  tasks pl !! tid = Some t -> task_moves c tid pl t p' t' ->
  within_bound (c_max_workers c) {| proc := p'; tasks := <[tid := t']> (tasks pl) |}.
Proof.
  unfold within_bound. intros Hinv Ht Hm. simpl.
  pose proof (active_count_insert (tasks pl) tid t t' Ht) as Hcount.
  destruct Hm as [ports Hcs| | | | | | |]; simpl in Hcount; try lia.
  unfold can_start in Hcs. apply andb_true_iff in Hcs as [_ Hlt].
  apply Z.ltb_lt in Hlt. fold (active_count (tasks pl)) in Hlt. lia.
Qed.

Lemma in_order_step (c : scan_config) (pl : pool P) (tid : nat) (t : task)
    (p' : process P) (t' : task) :
  in_order pl ->
  tasks pl !! tid = Some t -> task_moves c tid pl t p' t' ->
  in_order {| proc := p'; tasks := <[tid := t']> (tasks pl) |}.
Proof.
  intros Hinv Ht Hm i j ti tj Hij. simpl.
  assert (Hlen : (tid < length (tasks pl))%nat) by (eapply lookup_lt_Some; eauto).
  assert (Hq' : is_queued t' = false) by (destruct Hm; reflexivity).
  destruct (decide (tid = i)) as [<-|Hi].
  { rewrite list_lookup_insert_eq by exact Hlen. intros [= <-]. congruence. }
  rewrite (list_lookup_insert_ne _ tid i) by exact Hi.
  destruct (decide (tid = j)) as [<-|Hj].
  - rewrite list_lookup_insert_eq by exact Hlen. intros Hti [= <-] Hqi. exfalso.
    destruct Hm as [ports Hcs| | | | | | |];
      try (specialize (Hinv i tid ti _ Hij Hti Ht Hqi); discriminate Hinv).
    unfold can_start in Hcs. apply andb_true_iff in Hcs as [Hfifo _].
    rewrite forallb_forall in Hfifo.
    assert (Hin : In ti (take tid (tasks pl))).
    { apply list_elem_of_In, list_elem_of_lookup. exists i.
      apply lookup_take_Some. split; [exact Hti | exact Hij]. }
    apply Hfifo in Hin. rewrite Hqi in Hin. discriminate.
  - rewrite list_lookup_insert_ne by exact Hj. apply Hinv. exact Hij.
Qed.

(** X11. At every point of every schedule of a scan, at most
    [max_threads] of the submitted batches are being worked on at once,
    and batches are taken up in the order in which they were submitted:
    a batch is never started while an earlier one is still queued. *)
Theorem scan_pool_bounded_and_in_order (budget : nat) (sched : list nat)
    (ip : string) (max_threads : Z) (timeout : Q) (p : process P)
    (batches : list (list Z)) :
  Z.of_nat (active_count (tasks (scan_pool budget sched ip max_threads timeout p batches)))
    <= Z.max 0 max_threads /\
  (forall (i j : nat) (ti tj : task),
      (i < j)%nat ->
      tasks (scan_pool budget sched ip max_threads timeout p batches) !! i = Some ti ->
      tasks (scan_pool budget sched ip max_threads timeout p batches) !! j = Some tj ->
      is_queued ti = true -> is_queued tj = true).
Proof.
  unfold scan_pool. set (c := scan_config_of budget ip max_threads timeout). split.
  - apply (run_pool_invariant c (within_bound (c_max_workers c))).
    + intros. eapply within_bound_step; eauto.
    + unfold within_bound, active_count. simpl.
      assert (Hnone : filter (fun t => is_active t = true) (Queued <$> batches) = []).
      { apply filter_none. apply Forall_fmap, Forall_true. intros b. discriminate. }
      rewrite Hnone. simpl. lia.
  - apply (run_pool_invariant c in_order).
    + intros. eapply in_order_step; eauto.
    + intros i j ti tj _ _ Hj _. simpl in Hj. rewrite list_lookup_fmap in Hj.
      destruct (batches !! j); simpl in Hj; [injection Hj as <-; reflexivity | discriminate].
Qed.

End Bound.

(** With two workers and three batches, the third batch waits until one
    of the first two is done. *)
Example demo_pool_of_two :
  tasks (scan_pool (P := demo) 20 (round_robin 3 2) "::1" 2 0.1 demo_process
           [[20]; [21]; [22]])
  = [Running []; Running []; Queued [22]] /\
  tasks (scan_pool (P := demo) 20 (round_robin 3 3) "::1" 2 0.1 demo_process
           [[20]; [21]; [22]])
  = [Finished; Finished; Running [22]].
Proof. split; vm_compute; reflexivity. Qed.

(** ** The port specification *)

Lemma str_split_not_nil (sep : ascii) (s : string) : str_split sep s <> [].
Proof.
  destruct s as [|ch s]; simpl; [discriminate|].
  destruct (Ascii.eqb ch sep); [discriminate|].
  destruct (str_split sep s); discriminate.
Qed.

Lemma str_split_without (sep : ascii) (s : string) :
  str_contains sep s = false -> str_split sep s = [s].
Proof.
  induction s as [|ch s IH]; simpl; [reflexivity|].
  intros [Hch Hs]%orb_false_iff. rewrite Hch, (IH Hs). reflexivity.
Qed.

Lemma str_split_at (sep : ascii) (a b : string) :
  str_contains sep a = false ->
  str_split sep (a ++ String sep b)%string = a :: str_split sep b.
Proof.
  induction a as [|ch a IH]; simpl.
  - intros _. rewrite Ascii.eqb_refl. reflexivity.
  - intros [Hch Ha]%orb_false_iff. rewrite Hch, (IH Ha). reflexivity.
Qed.

Lemma str_contains_app (sep : ascii) (a b : string) :
  str_contains sep (a ++ String sep b)%string = true.
Proof.
  induction a as [|ch a IH]; simpl.
  - rewrite Ascii.eqb_refl. reflexivity.
  - rewrite IH. apply orb_true_r.
Qed.

Lemma str_split_cons_inv (sep : ascii) (s p : string) (ps : list string) :
  str_split sep s = p :: ps ->
  str_contains sep p = false /\
  ((ps = [] /\ s = p) \/
   exists rest, s = (p ++ String sep rest)%string /\ str_split sep rest = ps).
Proof.
  revert p ps. induction s as [|ch s IH]; intros p ps; simpl.
  - intros [= <- <-]. auto.
  - destruct (Ascii.eqb ch sep) eqn:Hch.
    + apply Ascii.eqb_eq in Hch as ->. intros [= <- <-].
      split; [reflexivity|]. right. exists s. auto.
    + destruct (str_split sep s) as [|piece pieces] eqn:Hs;
        [by apply str_split_not_nil in Hs|].
      intros [= <- <-]. destruct (IH _ _ eq_refl) as (Hpiece & Hcases).
      split; [simpl; by rewrite Hch, Hpiece|].
      destruct Hcases as [[-> ->]|(rest & -> & Hrest)]; [by left|].
      right. exists rest. auto.
Qed.

Section PortSpec.
Context {P : platform}.

(** X12. main reads a port specification in exactly two forms.  A text
    without a dash is one port, read by [int], and gives the range from
    that port to itself.  A text with exactly one dash gives the range
    from the number before the dash to the number after it, both read by
    [int].  Anything else (more than one dash, or a part [int] does not
    read) is rejected with ValueError. *)
Theorem parse_port_spec_accepts (spec : string) (start_port end_port : Z) :
  parse_port_spec (P := P) spec = Ok (start_port, end_port) <->
  (str_contains dash spec = false /\
   py_int P spec = Some start_port /\ end_port = start_port) \/
  (exists a b : string,
      spec = (a ++ "-" ++ b)%string /\
      str_contains dash a = false /\ str_contains dash b = false /\
      py_int P a = Some start_port /\ py_int P b = Some end_port).
Proof.
  unfold parse_port_spec. split.
  - destruct (str_contains dash spec) eqn:Hdash.
    + destruct (str_split dash spec) as [|a [|b [|c rest]]] eqn:Hsplit;
        try discriminate.
      destruct (py_int P a) as [x|] eqn:Ha; [|discriminate].
      destruct (py_int P b) as [y|] eqn:Hb; [|discriminate].
      intros [= <- <-]. right.
      apply str_split_cons_inv in Hsplit as (Hna & [[[=] _]|(rest & -> & Hrest)]).
      apply str_split_cons_inv in Hrest as (Hnb & [[_ ->]|(rest' & _ & Hnil)]);
        [|by apply str_split_not_nil in Hnil].
      exists a, b. auto.
    + destruct (py_int P spec) as [x|] eqn:Hx; [|discriminate].
      intros [= <- <-]. left. auto.
  - intros [(Hdash & Hx & ->)|(a & b & -> & Hna & Hnb & Ha & Hb)].
    + rewrite Hdash, Hx. reflexivity.
    + change (a ++ "-" ++ b)%string with (a ++ String dash b)%string.
      rewrite str_contains_app, (str_split_at _ _ _ Hna), (str_split_without _ _ Hnb).
      rewrite Ha, Hb. reflexivity.
Qed.

End PortSpec.

Example demo_port_specs :
  parse_port_spec (P := demo) "443" = Ok (443, 443) /\
  parse_port_spec (P := demo) "20-25" = Ok (20, 25) /\
  parse_port_spec (P := demo) "-25" = Exc ValueError /\
  parse_port_spec (P := demo) "20-" = Exc ValueError /\
  parse_port_spec (P := demo) "1-2-3" = Exc ValueError /\
  parse_port_spec (P := demo) "" = Exc ValueError.
Proof. repeat apply conj; reflexivity. Qed.

(** ** What main hands to fast_scan *)

(** X13. The two clamps of main.  The thread count main hands to
    fast_scan lies between 1 and 500, and it is the count given exactly
    when that lies between 1 and 500.  A finite timeout is clamped into
    0.1..5 seconds: it is kept when it lies there, raised to 0.1 when it is
    below and lowered to 5 when it is above; inf becomes 5 and -inf becomes
    0.1.  NaN is not clamped: every comparison with it is false, so min
    and max both keep it, and main goes on with a timeout of NaN. *)
Theorem clamps_keep_arguments_in_range (threads : Z) (timeout : pyfloat) :
  1 <= clamp_threads threads <= 500 /\
  (clamp_threads threads = threads <-> 1 <= threads <= 500) /\
  match timeout with
  | Finite q =>
      float_clamp_timeout timeout = Finite (clamp_timeout q) /\
      (0.1 <= clamp_timeout q <= 5.0)%Q /\
      ((0.1 <= q <= 5.0)%Q -> clamp_timeout q = q) /\
      ((q < 0.1)%Q -> clamp_timeout q = 0.1%Q) /\
      ((5.0 < q)%Q -> clamp_timeout q = 5.0%Q)
  | PosInf => float_clamp_timeout timeout = Finite 5.0
  | NegInf => float_clamp_timeout timeout = Finite 0.1
  | NaN => float_clamp_timeout timeout = NaN
  end.
Proof.
  split; [unfold clamp_threads; lia|].
  split; [unfold clamp_threads; lia|].
  destruct timeout as [q| | |]; try reflexivity.
  unfold float_clamp_timeout, py_min, py_max, clamp_timeout. simpl float_lt.
  destruct (Qltb 5.0 q) eqn:H5.
  - apply Qltb_lt in H5. simpl float_lt.
    change (Qltb 5.0 0.1) with false. cbv iota.
    repeat apply conj; try reflexivity; try lra.
  - assert (H5' : ~ (5.0 < q)%Q) by (rewrite <- Qltb_lt; congruence).
    simpl float_lt. destruct (Qltb q 0.1) eqn:H01.
    + apply Qltb_lt in H01. repeat apply conj; try reflexivity; try lra.
    + assert (H01' : ~ (q < 0.1)%Q) by (rewrite <- Qltb_lt; congruence).
      repeat apply conj; try reflexivity; try lra; intros; exfalso; lra.
Qed.

(** The clamps at work: a thread count of 0 becomes 1, and NaN stays. *)
Example demo_clamps :
  clamp_threads 0 = 1 /\ clamp_threads 200 = 200 /\ clamp_threads 1000 = 500 /\
  float_clamp_timeout (Finite 0.3) = Finite 0.3 /\
  float_clamp_timeout (Finite 60) = Finite 5.0 /\
  float_clamp_timeout NaN = NaN.
Proof. repeat apply conj; reflexivity. Qed.

(** ** main on valid input *)

(** The process state a run ends in. *)
Definition ending_process {P : platform} (e : ending P) : process P :=
  match e with
  | Returned p => p
  | Raised _ p => p
  | Waiting pl => proc pl
  end.

Definition not_an_error (m : level * message) : Prop := m.1 <> ERROR.

Section ValidInput.
Context {P : platform}.

Lemma run_pool_log_info (c : scan_config) (sched : list nat) (pl : pool P) :
  exists new : list (level * message),
    p_log (proc (run_pool c sched pl)) = p_log (proc pl) ++ new /\
    Forall not_an_error new.
Proof.
  revert pl. induction sched as [|tid sched IH]; intros pl.
  { exists []. split; [by rewrite app_nil_r | constructor]. }
  rewrite run_pool_cons. destruct (IH (pool_step c tid pl)) as (new2 & Hnew2 & Hok2).
  assert (Hstep : exists new1,
             p_log (proc (pool_step c tid pl)) = p_log (proc pl) ++ new1 /\
             Forall not_an_error new1).
  { unfold pool_step. destruct (task_step c tid pl) as [[p' t']|] eqn:Hs;
      [|exists []; split; [by rewrite app_nil_r | constructor]].
    apply task_step_moves in Hs as (t & Ht & Hm). simpl.
    destruct Hm; simpl;
      try (exists []; split; [by rewrite app_nil_r | constructor]).
    eexists. split; [reflexivity|]. repeat constructor. discriminate. }
  destruct Hstep as (new1 & Hnew1 & Hok1).
  exists (new1 ++ new2). split; [by rewrite Hnew2, Hnew1, app_assoc | by apply Forall_app].
Qed.

Lemma fast_scan_log (budget : nat) (sched : list nat) (ip : string)
    (start_port end_port max_threads : Z) (timeout : Q) (p : process P) :
  exists new : list (level * message),
    p_log (ending_process
             (fast_scan budget sched ip start_port end_port max_threads timeout p))
    = p_log p ++ new /\
    Forall not_an_error new.
Proof.
  unfold fast_scan.
  destruct (batch_ports start_port end_port (max_threads / 2)) as [batches|e];
    [|exists []; split; [by rewrite app_nil_r | constructor]].
  destruct (max_threads <=? 0);
    [exists []; split; [by rewrite app_nil_r | constructor]|].
  destruct (run_pool_log_info (scan_config_of budget ip max_threads timeout) sched
              (submitted p batches)) as (new & Hnew & Hok).
  exists new. split; [|exact Hok]. destruct (all_done _); exact Hnew.
Qed.

Lemma report_log (a : arguments) (start_time : Q) (p : process P) :
  exists new : list (level * message),
    p_log (ending_process (report a start_time p)) = p_log p ++ new /\
    Forall not_an_error new.
Proof.
  unfold report, proc_call.
  destruct (sys_call datetime_now (p_os p)) as [[now|e] st1]; simpl;
    [|exists []; split; [by rewrite app_nil_r | constructor]].
  destruct (scan_results p) as [|r rs] eqn:Hres.
  - simpl. exists [(WARNING, Msg "No open ports found");
                   (INFO, MsgTotalTime (now - start_time)%Q)].
    split; [by rewrite <- app_assoc|]. repeat constructor; discriminate.
  - unfold save_results, proc_call. simpl.
    destruct (sys_call (json_dump_file (a_output a) (scan_results p)) st1)
      as [[[]|e] st2]; simpl; rewrite ?Hres.
    + exists [(INFO, MsgSaved (a_output a));
              (INFO, MsgComplete (merge_sort Z.le (r_port <$> r :: rs)));
              (INFO, MsgTotalTime (now - start_time)%Q)].
      split; [by rewrite <- !app_assoc|]. repeat constructor; discriminate.
    + exists []. split; [by rewrite app_nil_r | constructor].
Qed.

(** X14. main turns no valid input away.  For an address validate_ip
    accepts and a port specification that parses to a range within
    1..65535 with its ends in order, main logs the two lines that
    announce the scan, with the thread count and the timeout clamped, and
    nothing it logs after them is an error, however the run ends. *)
Theorem main_accepts_valid_input (budget : nat) (sched : list nat) (a : arguments)
    (p : process P) (start_port end_port : Z) :
  validate_ip (P := P) (a_ip a) = Ok true ->
  parse_port_spec (P := P) (a_ports a) = Ok (start_port, end_port) ->
  1 <= start_port -> start_port <= end_port -> end_port <= 65535 ->
  exists rest : list (level * message),
    p_log (ending_process (main budget sched a p))
    = p_log p
        ++ (INFO, MsgScanning start_port end_port (a_ip a))
        :: (INFO, MsgThreads (clamp_threads (a_threads a)) (clamp_timeout (a_timeout a)))
        :: rest /\
    Forall not_an_error rest.
Proof.
  intros Hip Hparse H1 Horder H2. unfold main. rewrite Hip, Hparse. simpl.
  destruct (Z.ltb_spec start_port 1); [lia|].
  destruct (Z.ltb_spec 65535 end_port); [lia|].
  destruct (Z.ltb_spec end_port start_port); [lia|]. simpl.
  set (threads := clamp_threads (a_threads a)).
  set (timeout := clamp_timeout (a_timeout a)).
  set (p2 := logging INFO (MsgThreads threads timeout) _).
  assert (Hp2 : p_log p2 = p_log p ++ [(INFO, MsgScanning start_port end_port (a_ip a));
                                       (INFO, MsgThreads threads timeout)]).
  { subst p2. simpl. rewrite <- app_assoc. reflexivity. }
  clearbody p2. unfold proc_call.
  destruct (sys_call datetime_now (p_os p2)) as [[start_time|e] st3]; simpl.
  - destruct (fast_scan_log budget sched (a_ip a) start_port end_port threads timeout
                (set_os p2 st3)) as (new & Hnew & Hok).
    simpl in Hnew.
    destruct (fast_scan budget sched (a_ip a) start_port end_port threads timeout
                (set_os p2 st3)) as [p4|e p4|pl]; simpl in Hnew |- *.
    + destruct (report_log a start_time p4) as (new' & Hnew' & Hok').
      exists (new ++ new'). split; [|by apply Forall_app].
      rewrite Hnew', Hnew, Hp2, <- !app_assoc. reflexivity.
    + exists new. split; [|exact Hok]. rewrite Hnew, Hp2, <- app_assoc. reflexivity.
    + exists new. split; [|exact Hok]. rewrite Hnew, Hp2, <- app_assoc. reflexivity.
  - exists []. split; [|constructor]. rewrite Hp2. reflexivity.
Qed.

End ValidInput.

Lemma main_accepts_valid_input_witness :
  validate_ip (P := demo) "127.0.0.1" = Ok true /\
  parse_port_spec (P := demo) "20-25" = Ok (20, 25) /\
  exists rest : list (level * message),
    p_log (ending_process
             (main 20 (round_robin 3 30) (demo_args "127.0.0.1" "20-25" 4 false)
                demo_process))
    = p_log demo_process
        ++ (INFO, MsgScanning 20 25 "127.0.0.1")
        :: (INFO, MsgThreads (clamp_threads 4) (clamp_timeout 0.1))
        :: rest /\
    Forall not_an_error rest.
Proof.
  split; [reflexivity|]. split; [reflexivity|].
  exact (main_accepts_valid_input (P := demo) 20 (round_robin 3 30)
           (demo_args "127.0.0.1" "20-25" 4 false) demo_process 20 25
           eq_refl eq_refl ltac:(lia) ltac:(lia) ltac:(lia)).
Defined.

(** ** The records of a scan *)

(** What every record of a scan of [ip] looks like. *)
Definition well_formed_record (ip : string) (r : ProbeResult) : Prop :=
  r_ip r = ip /\
  r_status r = "open" /\
  r_service r = service_of (r_port r) /\
  (COMMON_PORTS !! r_port r = None -> r_banner r = []) /\
  (forall c, head (r_banner r) = Some c -> py_isspace c = false) /\
  (forall c, last (r_banner r) = Some c -> py_isspace c = false).

Section RecordShape.
Context {P : platform}.

Lemma get_banner_stripped (s : sock) (st st' : state P) (banner : ustr) :
  get_banner s st = (Ret banner, st') ->
  (forall c, head banner = Some c -> py_isspace c = false) /\
  (forall c, last banner = Some c -> py_isspace c = false).
Proof.
  unfold get_banner, try_except, bind, do_call, ret.
  destruct (sys_call (sock_settimeout s 1) st) as [[[]|e1] st1];
    [|intros [= <- _]; split; discriminate].
  destruct (sys_call (sock_recv s 1024) st1) as [[data|e2] st2];
    [|intros [= <- _]; split; discriminate].
  intros [= <- _].
  destruct (str_strip_spec (utf8_decode_ignore P data))
    as (pre & post & _ & _ & _ & Hhead & Hlast).
  auto.
Qed.

Lemma scan_port_record_well_formed (budget : nat) (ip : string) (port : Z)
    (timeout : Q) (st st' : state P) (r : ProbeResult) :
  scan_port budget ip port timeout st = (Ret (Some r), st') ->
  well_formed_record ip r.
Proof.
  intros Hrun. apply scan_port_inv in Hrun as (s & st0 & st1 & st2 & _ & _ & Hrec & _).
  apply open_record_inv in Hrec as (Hip & Hport & Hstatus & Hservice & stb & _ & Hbanner).
  unfold well_formed_record. rewrite Hport.
  split; [exact Hip|]. split; [exact Hstatus|]. split; [exact Hservice|].
  destruct (String.eqb (service_of port) "Unknown") eqn:Hs.
  - destruct Hbanner as [-> _]. split; [reflexivity|]. split; discriminate.
  - split; [|eapply get_banner_stripped; exact Hbanner].
    intros Hnone. apply service_of_unknown in Hnone.
    apply String.eqb_neq in Hs. contradiction.
Qed.

Lemma produced_well_formed (c : scan_config) (sched : list nat) (pl : pool P) :
  Forall (well_formed_record (c_ip c)) (produced c sched pl).
Proof.
  revert pl. induction sched as [|tid sched IH]; intros pl; [constructor|].
  simpl. apply Forall_app. split; [|apply IH]. unfold step_produced.
  destruct (tasks pl !! tid) as [[ports|[|port rest]|r rest|r rest|r rest|r rest| |e]|];
    try constructor.
  destruct (scan_port _ _ _ _ _) as [[[r|]|e|] st] eqn:Hrun; try constructor;
    [|constructor].
  eapply scan_port_record_well_formed; exact Hrun.
Qed.

(** X15. Every record a scan adds to the collection is for the scanned
    address, has status open, names the service the table gives for its
    port ([Unknown] for a port outside the table), has an empty banner
    when its port is outside the table, and has a banner that neither
    starts nor ends with whitespace. *)
Theorem fast_scan_records_well_formed (budget : nat) (sched : list nat)
    (ip : string) (start_port end_port max_threads : Z) (timeout : Q)
    (p p' : process P) :
  fast_scan budget sched ip start_port end_port max_threads timeout p = Returned p' ->
  exists new : list ProbeResult,
    scan_results p' = scan_results p ++ new /\
    Forall (well_formed_record ip) new.
Proof.
  intros H. apply fast_scan_new_records in H as (batches & new & _ & Hnew & Hperm).
  exists new. split; [exact Hnew|]. rewrite Hperm.
  apply (produced_well_formed (scan_config_of budget ip max_threads timeout)).
Qed.

End RecordShape.

Lemma fast_scan_records_well_formed_witness :
  fast_scan 20 (replicate 7 0%nat) "127.0.0.1" 22 22 4 0.1 demo_process
    = Returned demo_after_scan /\
  exists new : list ProbeResult,
    scan_results demo_after_scan = scan_results demo_process ++ new /\
    Forall (well_formed_record "127.0.0.1") new.
Proof.
  split; [exact demo_scan_returns|].
  exact (fast_scan_records_well_formed (P := demo) _ _ _ _ _ _ _ _ _ demo_scan_returns).
Defined.

Lemma fast_scan_returns_witness :
  ticking demo dw_clock /\
  (poll_budget 0.1 <= 20)%nat /\
  results_lock demo_process = None /\
  exists (more : list nat) (p' : process demo),
    fast_scan 20 ([0%nat; 1%nat] ++ more) "127.0.0.1" 20 25 4 0.1 demo_process
    = Returned p'.
Proof.
  assert (Hb : (poll_budget 0.1 <= 20)%nat) by (vm_compute; lia).
  split; [exact demo_ticking|]. split; [exact Hb|]. split; [reflexivity|].
  exact (fast_scan_returns (P := demo) dw_clock demo_ticking 20 [0%nat; 1%nat]
           "127.0.0.1" 20 25 4 0.1 demo_process Hb ltac:(lia) ltac:(lia) eq_refl).
Defined.
